(** * Base62 codec and Snowflake identifier generator

    A shallow embedding of [utils/base62.js] and [utils/idGenerator.js]
    and the properties of the codec, of the identifier layout and of the
    minting state machine.

    Conventions of the embedding.
    - A JavaScript string is its sequence of UTF-16 code units.
    - A BigInt is an integer of [Z].  The Numbers the program computes with
      (clock readings, timestamps, the sequence counter, character codes) are
      integers far below 2^53, where double arithmetic is exact; they are
      integers of [Z] too.  The one Number that need not be an integer is the
      result of [parseInt]: that is [number], an integer or [NaN].
    - A function that can throw returns a [completion]. *)

From Stdlib Require Import ZArith NArith List Lia String Ascii Bool.
From Stdlib Require Import DecimalString DecimalZ Sorted.
From Equations Require Import Equations.
Import ListNotations.

Open Scope Z_scope.

(** ** JavaScript values *)

Definition code_unit := N.
Definition jsstring := list code_unit.

(** A string literal of the source. *)
Definition js (s : string) : jsstring :=
  map N_of_ascii (list_ascii_of_string s).

(** The Numbers that are not known to be integers. *)
Inductive number :=
| NaN
| Int (z : Z).

(** What the program throws: [new Error(message)], or the [RangeError] of
    [BigInt(NaN)]. *)
Inductive exn :=
| Error (message : jsstring)
| RangeError.

Inductive completion (A : Type) :=
| Normal (a : A)
| Throw (e : exn).
Arguments Normal {A} a.
Arguments Throw {A} e.

(** [s[i]]: the code unit at index [i], [undefined] out of range. *)
Definition charAt (s : jsstring) (i : Z) : option code_unit :=
  if i <? 0 then None else nth_error s (Z.to_nat i).

(** [c + result] for [c = s[i]]: [undefined] is converted to its name. *)
Definition prepend (c : option code_unit) (result : jsstring) : jsstring :=
  match c with
  | Some c => c :: result
  | None => js "undefined" ++ result
  end.

(** [s.indexOf(c)] for a search string of one code unit: the first index,
    or -1. *)
Fixpoint indexOf_from (s : jsstring) (c : code_unit) (i : Z) : Z :=
  match s with
  | [] => -1
  | x :: s' => if N.eqb x c then i else indexOf_from s' c (i + 1)
  end.

Definition indexOf (s : jsstring) (c : code_unit) : Z := indexOf_from s c 0.

(** [String(x)] for an integer Number below 10^21. *)
Definition Number_toString (x : Z) : jsstring :=
  js (NilZero.string_of_int (Z.to_int x)).

(** [BigInt(x)]. *)
Definition BigInt (x : number) : completion Z :=
  match x with
  | NaN => Throw RangeError
  | Int z => Normal z
  end.

(** [ToInt32], the conversion every bitwise operator of Numbers applies. *)
Definition ToInt32 (x : Z) : Z := (x + 2 ^ 31) mod 2 ^ 32 - 2 ^ 31.

(** [a & b] and [a << n] on Numbers. *)
Definition Number_and (a b : Z) : Z := Z.land (ToInt32 a) (ToInt32 b).

Definition Number_shl (a n : Z) : Z :=
  ToInt32 (Z.shiftl (ToInt32 a) (n mod 32)).

(** ** utils/base62.js *)

Module Base62.

Definition BASE62_CHARS : jsstring :=
  js "0123456789abcdefghijklmnopqrstuvwxyzABCDEFGHIJKLMNOPQRSTUVWXYZ".

Definition BASE : Z := 62.

(** The loop of [encodeBase62]:
    [while (n > 0n) { result = BASE62_CHARS[Number(n % base)] + result;
                      n = n / base; }].
    BigInt [/] and [%] truncate towards zero. *)
Equations? encode_loop (n : Z) (result : jsstring) : jsstring
  by wf (Z.to_nat (Z.log2_up (n + 1))) lt :=
  encode_loop n result with Z_lt_dec 0 n => {
    | left _ :=
        encode_loop (Z.quot n BASE)
          (prepend (charAt BASE62_CHARS (Z.rem n BASE)) result);
    | right _ := result }.
Proof.
  unfold BASE. rewrite Z.quot_div_nonneg by lia.
  assert (0 <= n / 62) by (apply Z.div_pos; lia).
  assert (Hhalf : 2 * (n / 62 + 1) <= n + 1).
  { pose proof (Z.div_mod n 62 ltac:(lia)).
    pose proof (Z.mod_pos_bound n 62 ltac:(lia)). lia. }
  pose proof (Z.log2_up_double (n / 62 + 1) ltac:(lia)).
  pose proof (Z.log2_up_le_mono _ _ Hhalf).
  pose proof (Z.log2_up_nonneg (n / 62 + 1)). lia.
Qed.

(** [num] is the integer passed, as a BigInt or as a Number: the test
    [num === 0 || num === 0n] and [BigInt(num)] treat both alike. *)
Definition encodeBase62 (num : Z) : jsstring :=
  if num =? 0 then prepend (charAt BASE62_CHARS 0) []
  else encode_loop num [].

(** The [for] loop of [decodeBase62], on the characters not yet read. *)
Fixpoint decode_loop (str : jsstring) (num : Z) : completion Z :=
  match str with
  | [] => Normal num
  | char :: rest =>
      let charIndex := indexOf BASE62_CHARS char in
      if charIndex =? -1
      then Throw (Error (js "Invalid Base62 character: " ++ [char]))
      else decode_loop rest (num * BASE + charIndex)
  end.

Definition decodeBase62 (str : jsstring) : completion Z := decode_loop str 0.

(** A character of the alphabet. *)
Definition isBase62 (c : code_unit) : Prop := In c BASE62_CHARS.

(** The index of the first character of [str] outside the alphabet. *)
Fixpoint firstInvalid (str : jsstring) : option nat :=
  match str with
  | [] => None
  | char :: rest =>
      if indexOf BASE62_CHARS char =? -1 then Some O
      else option_map S (firstInvalid rest)
  end.

(** The 62 characters are distinct: [indexOf] inverts indexing. *)
Definition alphabet_check : bool :=
  forallb
    (fun i => match nth_error BASE62_CHARS i with
              | Some c => indexOf BASE62_CHARS c =? Z.of_nat i
              | None => false
              end)
    (seq 0 62).

(** No leading zero digit. *)
Definition noLeadingZero (str : jsstring) : Prop :=
  forall rest, str <> 48%N :: rest.

End Base62.

(** ** utils/idGenerator.js *)

(** [a < b] on Numbers: false as soon as one side is [NaN]. *)
Definition number_ltb (a b : number) : bool :=
  match a, b with
  | Int x, Int y => x <? y
  | _, _ => false
  end.

(** White space and line terminators, which [parseInt] skips. *)
Definition isWhiteSpace (c : code_unit) : bool :=
  (existsb (N.eqb c)
     [9; 10; 11; 12; 13; 32; 160; 5760; 8232; 8233; 8239; 8287; 12288; 65279]
   || ((8192 <=? c) && (c <=? 8202)))%N.

Fixpoint trimStart (s : jsstring) : jsstring :=
  match s with
  | c :: s' => if isWhiteSpace c then trimStart s' else s
  | [] => []
  end.

Definition digitValue (c : code_unit) : option Z :=
  if ((48 <=? c) && (c <=? 57))%N then Some (Z.of_N c - 48) else None.

(** The value of the longest prefix of decimal digits; [acc] is [None] until
    a digit has been read. *)
Fixpoint parseDigits (s : jsstring) (acc : option Z) : option Z :=
  match s with
  | c :: s' =>
      match digitValue c with
      | Some d =>
          parseDigits s' (Some (10 * match acc with Some a => a | None => 0 end + d))
      | None => acc
      end
  | [] => acc
  end.

(** [parseInt(s, 10)].  The result keeps the exact integer: the double that
    JavaScript rounds it to compares with 0 and with 1023 the same way, and
    is the same integer whenever it lies between them. *)
Definition parseInt (s : jsstring) : number :=
  let S := trimStart s in
  let '(sign, digits) :=
    match S with
    | c :: S' =>
        if (c =? 45)%N then (-1, S')
        else if (c =? 43)%N then (1, S')
        else (1, S)
    | [] => (1, S)
    end in
  match parseDigits digits None with
  | Some mathInt => Int (sign * mathInt)
  | None => NaN
  end.

Module IdGenerator.

Definition MACHINE_ID_BITS : Z := 10.
Definition SEQUENCE_BITS : Z := 12.

Definition MAX_MACHINE_ID : Z := Number_shl 1 MACHINE_ID_BITS - 1.
Definition MAX_SEQUENCE : Z := Number_shl 1 SEQUENCE_BITS - 1.

(** [new Date('2020-01-01T00:00:00Z').getTime()]. *)
Definition EPOCH : Z := 1577836800000.

(** What [getMachineId] reads: [process.env.MACHINE_ID] ([None] when it is
    undefined) and [os.hostname()]. *)
Record Env := {
  MACHINE_ID : option jsstring;
  hostname : jsstring
}.

(** The hostname loop:
    [hash = ((hash << 5) - hash) + char; hash = hash & hash]. *)
Fixpoint hash_loop (hostname : jsstring) (hash : Z) : Z :=
  match hostname with
  | [] => hash
  | char :: rest =>
      let hash := (Number_shl hash 5 - hash) + Z.of_N char in
      let hash := Number_and hash hash in
      hash_loop rest hash
  end.

Definition getMachineId (env : Env) : completion number :=
  match MACHINE_ID env with
  | Some value =>
      let id := parseInt value in
      if number_ltb id (Int 0) || number_ltb (Int MAX_MACHINE_ID) id
      then Throw (Error (js "MACHINE_ID must be between 0 and "
                           ++ Number_toString MAX_MACHINE_ID))
      else Normal id
  | None =>
      let hash := hash_loop (hostname env) 0 in
      Normal (Int (Number_and (Z.abs hash) MAX_MACHINE_ID))
  end.

(** The module's two variables and the readings [Date.now()] is still to
    return, in order. *)
Record World := {
  sequence : Z;
  lastTimestamp : Z;
  clock : list Z
}.

(** The state of a module just loaded. *)
Definition init (clock : list Z) : World :=
  {| sequence := 0; lastTimestamp := -1; clock := clock |}.

(** A computation on the world: it completes normally or by a throw, or is
    still running ([None]) when the readings are used up. *)
Definition M (A : Type) : Type := World -> option (completion A * World).

Definition ret {A} (a : A) : M A := fun w => Some (Normal a, w).

Definition bind {A B} (m : M A) (k : A -> M B) : M B :=
  fun w =>
    match m w with
    | None => None
    | Some (Throw e, w') => Some (Throw e, w')
    | Some (Normal a, w') => k a w'
    end.

Notation "x <- m ;; k" := (bind m (fun x => k))
  (at level 61, m at next level, right associativity).
Notation "m ;; k" := (bind m (fun _ => k))
  (at level 61, right associativity).

Definition throw {A} (e : exn) : M A := fun w => Some (Throw e, w).

Definition lift {A} (c : completion A) : M A := fun w => Some (c, w).

Definition get {A} (field : World -> A) : M A := fun w => Some (Normal (field w), w).

Definition set_sequence (v : Z) : M unit :=
  fun w => Some (Normal tt,
                 {| sequence := v; lastTimestamp := lastTimestamp w; clock := clock w |}).

Definition set_lastTimestamp (v : Z) : M unit :=
  fun w => Some (Normal tt,
                 {| sequence := sequence w; lastTimestamp := v; clock := clock w |}).

Definition Date_now : M Z :=
  fun w =>
    match clock w with
    | [] => None
    | now :: rest =>
        Some (Normal now,
              {| sequence := sequence w; lastTimestamp := lastTimestamp w; clock := rest |})
    end.

(** The busy wait of [waitNextMillis] on the readings to come: the first
    reading is the one taken before the loop, every later one is taken by an
    iteration. *)
Fixpoint poll (lastTimestamp : Z) (readings : list Z) : option (Z * list Z) :=
  match readings with
  | [] => None
  | now :: rest =>
      let timestamp := now - EPOCH in
      if timestamp <=? lastTimestamp then poll lastTimestamp rest
      else Some (timestamp, rest)
  end.

Definition waitNextMillis (lastTimestamp' : Z) : M Z :=
  fun w =>
    match poll lastTimestamp' (clock w) with
    | None => None
    | Some (timestamp, rest) =>
        Some (Normal timestamp,
              {| sequence := sequence w; lastTimestamp := lastTimestamp w; clock := rest |})
    end.

(** [(BigInt(timestamp) << 22n) | (BigInt(machineId) << 12n) | BigInt(sequence)]. *)
Definition composeId (timestamp machineId sequence : Z) : Z :=
  Z.lor (Z.lor (Z.shiftl timestamp (MACHINE_ID_BITS + SEQUENCE_BITS))
               (Z.shiftl machineId SEQUENCE_BITS))
        sequence.

Section Generator.

(** [const machineId = getMachineId()]. *)
Variable machineId : number.

Definition generateId : M Z :=
  now <- Date_now ;;
  let timestamp := now - EPOCH in
  last <- get lastTimestamp ;;
  if timestamp <? last then
    let skew := last - timestamp in
    throw (Error (js "Clock moved backward. Refusing to generate ID for "
                    ++ Number_toString skew ++ js "ms"))
  else
    timestamp <-
      (if timestamp =? last then
         seq <- get sequence ;;
         set_sequence (Number_and (seq + 1) MAX_SEQUENCE) ;;
         seq <- get sequence ;;
         if seq =? 0 then
           timestamp <- waitNextMillis last ;;
           set_sequence 0 ;;
           ret timestamp
         else ret timestamp
       else
         set_sequence 0 ;;
         ret timestamp) ;;
    set_lastTimestamp timestamp ;;
    machine <- lift (BigInt machineId) ;;
    seq <- get sequence ;;
    ret (composeId timestamp machine seq).

(** Successive calls, as the callers and the tests make them: each
    completion is recorded, a throw does not stop the caller.  The run ends
    early when a call is still waiting for the clock at the end of the
    readings. *)
Fixpoint run (n : nat) (w : World) : list (completion Z) :=
  match n with
  | O => []
  | S k =>
      match generateId w with
      | None => []
      | Some (c, w') => c :: run k w'
      end
  end.

End Generator.

(** The identifiers of the calls that succeeded. *)
Fixpoint successes (l : list (completion Z)) : list Z :=
  match l with
  | [] => []
  | Normal id :: l' => id :: successes l'
  | Throw _ :: l' => successes l'
  end.

Module Parsed.
Record t := {
  timestamp : Z;
  machineId : Z;
  sequence : Z;
  date : Z
}.
End Parsed.

(** [date] is the time value of [new Date(timestamp + EPOCH)]. *)
Definition parseId (id : Z) : Parsed.t :=
  let timestamp :=
    Z.land (Z.shiftr id (MACHINE_ID_BITS + SEQUENCE_BITS)) 2199023255551 in
  let machineId := Z.land (Z.shiftr id SEQUENCE_BITS) MAX_MACHINE_ID in
  let sequence := Z.land id MAX_SEQUENCE in
  let date := timestamp + EPOCH in
  {| Parsed.timestamp := timestamp;
     Parsed.machineId := machineId;
     Parsed.sequence := sequence;
     Parsed.date := date |}.

(** The end of a call that does not throw for clock skew: the two variables
    are written, then the identifier is composed. *)
Definition finish (machineId : number) (timestamp seq : Z) (rest : list Z)
  : option (completion Z * World) :=
  let w := {| sequence := seq; lastTimestamp := timestamp; clock := rest |} in
  match machineId with
  | Int k => Some (Normal (composeId timestamp k seq), w)
  | NaN => Some (Throw RangeError, w)
  end.

Definition skewError (skew : Z) : exn :=
  Error (js "Clock moved backward. Refusing to generate ID for "
           ++ Number_toString skew ++ js "ms").

End IdGenerator.

(** ** Runs of the generator *)

Module IdGeneratorRuns.
Import IdGenerator.

(** The module's variables and the readings left after [n] calls, whatever
    their completions; [None] when a call is still waiting at the end of the
    readings. *)
Fixpoint after (machineId : number) (n : nat) (w : World) : option World :=
  match n with
  | O => Some w
  | S k =>
      match generateId machineId w with
      | None => None
      | Some (_, w') => after machineId k w'
      end
  end.

(** The identifiers of a list minted at the timestamp [t]:
    [id >> 22n] is the timestamp composed into [id]. *)
Definition mintedAt (t : Z) (ids : list Z) : list Z :=
  filter (fun id => Z.shiftr id (MACHINE_ID_BITS + SEQUENCE_BITS) =? t) ids.

(** The identifiers of a list from which [parseId] reads the timestamp [t]:
    the 41 low bits of [id >> 22n]. *)
Definition parsedAt (t : Z) (ids : list Z) : list Z :=
  filter (fun id => Parsed.timestamp (parseId id) =? t) ids.

End IdGeneratorRuns.

(** ** routes/shorten.js: minting the identifier and the short code *)

Module Shorten.
Import IdGenerator.

(** [e.message].  For the [RangeError] of [BigInt(NaN)] it is the text V8
    gives it. *)
Definition message (e : exn) : jsstring :=
  match e with
  | Error message => message
  | RangeError =>
      js "The number NaN cannot be converted to a BigInt because it is not an integer"
  end.

Fixpoint startsWith (s search : jsstring) : bool :=
  match search, s with
  | [], _ => true
  | _ :: _, [] => false
  | x :: search', y :: s' => N.eqb x y && startsWith s' search'
  end.

(** [s.includes(search)]. *)
Fixpoint includes (s search : jsstring) : bool :=
  startsWith s search ||
  match s with
  | [] => false
  | _ :: s' => includes s' search
  end.

Definition MAX_RETRIES : Z := 3.

(** What the handler throws when it gives up. *)
Definition skewGivenUp : exn :=
  Error (js "Clock skew detected. Server time synchronization required.").

(** The attempts left to a loop entered with [retries]. *)
Definition remaining (retries : Z) : nat := Z.to_nat (MAX_RETRIES - retries).

Section Handler.

Variable machineId : number.

(** What the rest of the process does to the generator while the handler
    waits in [await new Promise(resolve => setTimeout(resolve, 1))]: other
    requests may mint identifiers then. *)
Variable elsewhere : World -> World.

(** The retry loop of the handler of [POST /shorten], entered with
    [retries]:
    [while (retries < MAX_RETRIES) { try { id = generateId();
       shortCode = encodeBase62(id); break; } catch (idError) { ... } }].
    The result is [(id, shortCode)] as the loop leaves them, [None] while
    they are undefined. *)
Equations? retry_loop (retries : Z) (w : World)
  : option (completion (option (Z * jsstring)) * World)
  by wf (remaining retries) lt :=
  retry_loop retries w with Z_lt_dec retries MAX_RETRIES => {
    | right _ := Some (Normal None, w);
    | left _ with generateId machineId w => {
        | None := None;
        | Some (Normal id, w') :=
            Some (Normal (Some (id, Base62.encodeBase62 id)), w');
        | Some (Throw idError, w')
            with includes (message idError) (js "Clock moved backward") => {
            | false := Some (Throw idError, w');
            | true with Z_le_dec MAX_RETRIES (retries + 1) => {
                | left _ :=
                    Some (Throw (Error (js "Clock skew detected. Server time synchronization required.")),
                          w');
                | right _ := retry_loop (retries + 1) (elsewhere w') } } } }.
Proof.
  unfold remaining, MAX_RETRIES in *. lia.
Qed.

(** [j] attempts in a row, from [w], fail because the clock moved backward;
    [w'] is the state the next attempt starts in. *)
Fixpoint skews (j : nat) (w w' : World) : Prop :=
  match j with
  | O => w' = w
  | S j' =>
      exists skew w1,
        generateId machineId w = Some (Throw (skewError skew), w1) /\
        skews j' (elsewhere w1) w'
  end.

(** [let id; let shortCode; let retries = 0;] and the loop. *)
Definition mint (w : World) : option (completion (option (Z * jsstring)) * World) :=
  retry_loop 0 w.

End Handler.

End Shorten.

(** ** middleware/rateLimiter.js *)

Module RateLimiter.

(** A value of [rateLimitStore]. *)
Record Entry := {
  count : Z;
  resetTime : Z
}.

(** The [Map] from client address to entry: the keys in insertion order. *)
Definition Store := list (jsstring * Entry).

Definition same (a b : jsstring) : bool :=
  if list_eq_dec N.eq_dec a b then true else false.

Fixpoint Map_get (store : Store) (key : jsstring) : option Entry :=
  match store with
  | [] => None
  | (k, v) :: rest => if same k key then Some v else Map_get rest key
  end.

(** [store.set(key, value)]: a key already present keeps its place. *)
Fixpoint Map_set (store : Store) (key : jsstring) (value : Entry) : Store :=
  match store with
  | [] => [(key, value)]
  | (k, v) :: rest =>
      if same k key then (k, value) :: rest
      else (k, v) :: Map_set rest key value
  end.

Definition Map_delete (store : Store) (key : jsstring) : Store :=
  filter (fun kv => negb (same (fst kv) key)) store.

(** The callback of [setInterval]: the entries are visited in order and the
    expired ones deleted. *)
Definition cleanup (now : Z) (store : Store) : Store :=
  fold_left
    (fun live kv => if now >? resetTime (snd kv) then Map_delete live (fst kv) else live)
    store store.

(** The integers a Number holds exactly, [Number.isSafeInteger]: among
    them the sums and differences of the source are those of [Z]. *)
Definition MAX_SAFE_INTEGER : Z := 2 ^ 53 - 1.

Definition isSafeInteger (z : Z) : bool := Z.abs z <=? MAX_SAFE_INTEGER.

(** The time values of the valid dates: [new Date(t)] is an invalid date
    for an integer [t] beyond them. *)
Definition MAX_TIME : Z := 8640000000000000.

Definition validTime (t : Z) : bool := Z.abs t <=? MAX_TIME.

(** The argument of [createRateLimiter]; a field is [None] when the caller
    left it undefined.  The numbers are integers. *)
Record Options := {
  windowMs : option Z;
  maxRequests : option Z;
  message : option jsstring
}.

Definition windowMs' (options : Options) : Z :=
  match windowMs options with Some v => v | None => 60 * 1000 end.

Definition maxRequests' (options : Options) : Z :=
  match maxRequests options with Some v => v | None => 100 end.

Definition message' (options : Options) : jsstring :=
  match message options with
  | Some v => v
  | None => js "Too many requests, please try again later"
  end.

(** What the middleware reads of a request; a field is [None] when it is
    undefined. *)
Record Request := {
  x_forwarded_for : option jsstring;
  connection_remoteAddress : option jsstring;
  socket_remoteAddress : option jsstring
}.

(** [header.split(',')[0]]. *)
Fixpoint beforeComma (header : jsstring) : jsstring :=
  match header with
  | [] => []
  | c :: rest => if (c =? 44)%N then [] else c :: beforeComma rest
  end.

(** [a || b] on strings that may be undefined: the empty string is falsy. *)
Definition or_else (a b : option jsstring) : option jsstring :=
  match a with
  | Some (_ :: _) => a
  | _ => b
  end.

Definition clientIp (req : Request) : jsstring :=
  match or_else (or_else (or_else (option_map beforeComma (x_forwarded_for req))
                                  (connection_remoteAddress req))
                         (socket_remoteAddress req))
                (Some (js "unknown")) with
  | Some ip => ip
  | None => []
  end.

(** The headers the middleware sets.  [X_RateLimit_Reset] holds the time
    value whose ISO text [new Date(resetTime).toISOString()] is sent. *)
Record Headers := {
  Retry_After : option Z;
  X_RateLimit_Limit : option Z;
  X_RateLimit_Remaining : option Z;
  X_RateLimit_Reset : option Z
}.

Definition noHeaders : Headers :=
  {| Retry_After := None; X_RateLimit_Limit := None;
     X_RateLimit_Remaining := None; X_RateLimit_Reset := None |}.

(** How the middleware ends: by [next()], by
    [res.status(status).json({ error, retryAfter })], or by the [RangeError]
    that [toISOString()] throws on an invalid date, with the headers set
    until then. *)
Inductive Reply :=
| next (headers : Headers)
| json (status : Z) (headers : Headers) (error retryAfter : jsstring)
| invalidTime (headers : Headers).

Definition passed (reply : Reply) : bool :=
  match reply with
  | next _ => true
  | json _ _ _ _ => false
  | invalidTime _ => false
  end.

Definition set_X_RateLimit_Reset (v : Z) (headers : Headers) : Headers :=
  {| Retry_After := Retry_After headers;
     X_RateLimit_Limit := X_RateLimit_Limit headers;
     X_RateLimit_Remaining := X_RateLimit_Remaining headers;
     X_RateLimit_Reset := Some v |}.

(** [Math.ceil(a / b)] for integers [a] and [b > 0]: the double quotient of
    integers below 2^53 has the ceiling of the exact one. *)
Definition ceilDiv (a b : Z) : Z := - ((- a) / b).

(** The middleware [createRateLimiter(options)] returns, on a request
    handled when [Date.now()] is [now].  Its additions and subtractions are
    written in [Z]: they are those of the source as long as the options,
    the clock readings and the counts are safe integers, which the theorems
    below on the values it computes assume. *)
Definition rateLimiter (options : Options) (req : Request) (now : Z) (store : Store)
  : Reply * Store :=
  let ip := clientIp req in
  let fresh :=
    (next noHeaders,
     Map_set store ip {| count := 1; resetTime := now + windowMs' options |}) in
  match Map_get store ip with
  | None => fresh
  | Some record =>
      if now >? resetTime record then fresh
      else
        let record := {| count := count record + 1; resetTime := resetTime record |} in
        let store := Map_set store ip record in
        if count record >? maxRequests' options then
          let retryAfter := ceilDiv (resetTime record - now) 1000 in
          let headers :=
            {| Retry_After := Some retryAfter;
               X_RateLimit_Limit := Some (maxRequests' options);
               X_RateLimit_Remaining := Some 0;
               X_RateLimit_Reset := None |} in
          if validTime (resetTime record) then
            (json 429
               (set_X_RateLimit_Reset (resetTime record) headers)
               (message' options)
               (Number_toString retryAfter ++ js " seconds"),
             store)
          else (invalidTime headers, store)
        else
          let headers :=
            {| Retry_After := None;
               X_RateLimit_Limit := Some (maxRequests' options);
               X_RateLimit_Remaining :=
                 Some (Z.max 0 (maxRequests' options - count record));
               X_RateLimit_Reset := None |} in
          if validTime (resetTime record) then
            (next (set_X_RateLimit_Reset (resetTime record) headers), store)
          else (invalidTime headers, store)
  end.

Definition shortenRateLimiter : Request -> Z -> Store -> Reply * Store :=
  rateLimiter
    {| windowMs := Some (60 * 1000); maxRequests := Some 50;
       message := Some (js "Rate limit exceeded for URL creation. Please try again later.") |}.

Definition redirectRateLimiter : Request -> Z -> Store -> Reply * Store :=
  rateLimiter
    {| windowMs := Some (60 * 1000); maxRequests := Some 1000;
       message := Some (js "Rate limit exceeded for redirects. Please try again later.") |}.

(** Requests handled one after the other, each by the limiter of its route
    at its reading of the clock, on the one store of the module. *)
Fixpoint serve (requests : list (Options * Request * Z)) (store : Store)
  : list Reply * Store :=
  match requests with
  | [] => ([], store)
  | (options, req, now) :: rest =>
      let '(reply, store) := rateLimiter options req now store in
      let '(replies, store) := serve rest store in
      (reply :: replies, store)
  end.

(** The entry of a client that still counts at [now]. *)
Definition live (now : Z) (store : Store) (ip : jsstring) : option Entry :=
  match Map_get store ip with
  | Some record => if now >? resetTime record then None else Some record
  | None => None
  end.

(** A request whose numbers the source computes with exactly: the options
    are safe integers and the reading of [Date.now()] is a time value. *)
Definition inRange (x : Options * Request * Z) : bool :=
  let '(options, _, now) := x in
  isSafeInteger (windowMs' options) && isSafeInteger (maxRequests' options)
  && validTime now.

End RateLimiter.

(** ** utils/circuitBreaker.js *)

Module CircuitBreaker.

Inductive State := CLOSED | OPEN | HALF_OPEN.

(** The fields of a [CircuitBreaker]; [lastFailureTime] is [None] for
    [null]. *)
Record Breaker := {
  failureThreshold : Z;
  successThreshold : Z;
  timeout : Z;
  resetTimeout : Z;
  state : State;
  failureCount : Z;
  successCount : Z;
  lastFailureTime : option Z;
  name : jsstring
}.

(** The argument of the constructor; a field is [None] when it is
    undefined. *)
Record Options := {
  options_failureThreshold : option Z;
  options_successThreshold : option Z;
  options_timeout : option Z;
  options_resetTimeout : option Z;
  options_name : option jsstring
}.

(** [x || d] for a number that may be undefined: 0 is falsy. *)
Definition number_or (x : option Z) (d : Z) : Z :=
  match x with
  | Some v => if v =? 0 then d else v
  | None => d
  end.

(** [x || d] for a string that may be undefined: the empty string is
    falsy. *)
Definition string_or (x : option jsstring) (d : jsstring) : jsstring :=
  match x with
  | Some (c :: x') => c :: x'
  | _ => d
  end.

Definition constructor (options : Options) : Breaker :=
  {| failureThreshold := number_or (options_failureThreshold options) 5;
     successThreshold := number_or (options_successThreshold options) 2;
     timeout := number_or (options_timeout options) 60000;
     resetTimeout := number_or (options_resetTimeout options) 30000;
     state := CLOSED;
     failureCount := 0;
     successCount := 0;
     lastFailureTime := None;
     name := string_or (options_name options) (js "circuit-breaker") |}.

Definition set_state (v : State) (b : Breaker) : Breaker :=
  {| failureThreshold := failureThreshold b; successThreshold := successThreshold b;
     timeout := timeout b; resetTimeout := resetTimeout b;
     state := v; failureCount := failureCount b; successCount := successCount b;
     lastFailureTime := lastFailureTime b; name := name b |}.

Definition set_failureCount (v : Z) (b : Breaker) : Breaker :=
  {| failureThreshold := failureThreshold b; successThreshold := successThreshold b;
     timeout := timeout b; resetTimeout := resetTimeout b;
     state := state b; failureCount := v; successCount := successCount b;
     lastFailureTime := lastFailureTime b; name := name b |}.

Definition set_successCount (v : Z) (b : Breaker) : Breaker :=
  {| failureThreshold := failureThreshold b; successThreshold := successThreshold b;
     timeout := timeout b; resetTimeout := resetTimeout b;
     state := state b; failureCount := failureCount b; successCount := v;
     lastFailureTime := lastFailureTime b; name := name b |}.

Definition set_lastFailureTime (v : option Z) (b : Breaker) : Breaker :=
  {| failureThreshold := failureThreshold b; successThreshold := successThreshold b;
     timeout := timeout b; resetTimeout := resetTimeout b;
     state := state b; failureCount := failureCount b; successCount := successCount b;
     lastFailureTime := v; name := name b |}.

(** [Date.now() - this.lastFailureTime]: [null] counts for 0. *)
Definition sinceLastFailure (now : Z) (b : Breaker) : Z :=
  now - match lastFailureTime b with Some t => t | None => 0 end.

(** The part of [execute] before [fn] is called, [now] being the reading
    of [Date.now()] if one is taken: [None] when the call fails fast, the
    breaker with which [fn] is called otherwise. *)
Definition enter (now : Z) (b : Breaker) : option Breaker :=
  match state b with
  | OPEN =>
      if sinceLastFailure now b >? resetTimeout b
      then Some (set_successCount 0 (set_state HALF_OPEN b))
      else None
  | _ => Some b
  end.

(** The part of [execute] after [fn] has returned. *)
Definition onSuccess (b : Breaker) : Breaker :=
  match state b with
  | HALF_OPEN =>
      let b := set_successCount (successCount b + 1) b in
      if successCount b >=? successThreshold b
      then set_successCount 0 (set_failureCount 0 (set_state CLOSED b))
      else b
  | _ => set_failureCount 0 b
  end.

(** The part of [execute] after [fn] has thrown, [now] being the reading of
    [Date.now()] in the [catch] block. *)
Definition onFailure (now : Z) (b : Breaker) : Breaker :=
  let b := set_failureCount (failureCount b + 1) b in
  let b := set_lastFailureTime (Some now) b in
  if failureCount b >=? failureThreshold b then set_state OPEN b else b.

(** What [execute] throws: what [fn] or [fallback] threw, or its own
    [Error]. *)
Inductive Thrown (E : Type) :=
| Rejected (error : E)
| CircuitOpen (message : jsstring).
Arguments Rejected {E} error.
Arguments CircuitOpen {E} message.

Section Execute.

(** The results and the thrown values of the protected function, and the
    state of the service it calls. *)
Variables A E S : Type.

Definition Fn : Type := S -> (A + E) * S.

Definition call (f : Fn) (s : S) : (A + Thrown E) * S :=
  match f s with
  | (inl a, s') => (inl a, s')
  | (inr e, s') => (inr (Rejected e), s')
  end.

(** [execute(fn, fallback)], when no other call of the breaker runs while
    [fn] is awaited.  [now] and [later] are the readings of [Date.now()] on
    entry and in the [catch] block. *)
Definition execute (fn : Fn) (fallback : option Fn) (now later : Z)
    (b : Breaker) (s : S) : (A + Thrown E) * Breaker * S :=
  match enter now b with
  | None =>
      match fallback with
      | Some f => let '(r, s') := call f s in (r, b, s')
      | None =>
          (inr (CircuitOpen (name b ++ js " circuit breaker is OPEN")), b, s)
      end
  | Some b =>
      match fn s with
      | (inl result, s') => (inl result, onSuccess b, s')
      | (inr error, s') =>
          let b := onFailure later b in
          match state b, fallback with
          | OPEN, Some f => let '(r, s'') := call f s' in (r, b, s'')
          | _, _ => (inr (Rejected error), b, s')
          end
      end
  end.

(** A protected function that throws, or returns, whatever the state of
    the service. *)
Definition fails (fn : Fn) : Prop := forall s, exists e s', fn s = (inr e, s').

Definition succeeds (fn : Fn) : Prop := forall s, exists a s', fn s = (inl a, s').

(** A call of [execute]: its arguments and the two readings of the clock. *)
Record Call := {
  call_fn : Fn;
  call_fallback : option Fn;
  call_now : Z;
  call_later : Z
}.

(** The call [c] with another protected function. *)
Definition with_fn (g : Fn) (c : Call) : Call :=
  {| call_fn := g; call_fallback := call_fallback c;
     call_now := call_now c; call_later := call_later c |}.

(** What a series of calls leaves: what each returned or threw, the breaker
    and the service. *)
Record Run := {
  results : list (A + Thrown E);
  breaker : Breaker;
  service : S
}.

(** One call of [execute] after the other. *)
Fixpoint executes (calls : list Call) (b : Breaker) (s : S) : Run :=
  match calls with
  | [] => {| results := []; breaker := b; service := s |}
  | c :: rest =>
      let '(r, b, s) :=
        execute (call_fn c) (call_fallback c) (call_now c) (call_later c) b s in
      let run := executes rest b s in
      {| results := r :: results run; breaker := breaker run;
         service := service run |}
  end.

End Execute.

Arguments call_fn {A E S} c.
Arguments call_fallback {A E S} c.
Arguments call_now {A E S} c.
Arguments call_later {A E S} c.
Arguments with_fn {A E S} g c.
Arguments results {A E S} r.
Arguments breaker {A E S} r.
Arguments service {A E S} r.
Arguments execute {A E S} fn fallback now later b s.
Arguments executes {A E S} calls b s.
Arguments fails {A E S} fn.
Arguments succeeds {A E S} fn.
Arguments call {A E S} f s.

Definition reset (b : Breaker) : Breaker :=
  set_lastFailureTime None
    (set_successCount 0 (set_failureCount 0 (set_state CLOSED b))).

Definition dbCircuitBreaker : Breaker :=
  constructor
    {| options_failureThreshold := Some 5; options_successThreshold := Some 2;
       options_timeout := None; options_resetTimeout := Some 30000;
       options_name := Some (js "database") |}.

(** A breaker that is not closed has failed often enough, and at a known
    time. *)
Definition consistent (b : Breaker) : Prop :=
  state b <> CLOSED ->
  failureThreshold b <= failureCount b /\ lastFailureTime b <> None.

End CircuitBreaker.

(** * Properties *)

(** ** The codec *)

Module Base62Facts.
Import Base62.

(** One step of the loop of [encodeBase62]. *)
Lemma encode_loop_step (n : Z) (result : jsstring) :
  0 < n ->
  encode_loop n result =
  encode_loop (n / 62) (prepend (charAt BASE62_CHARS (n mod 62)) result).
Proof.
  intros Hn. rewrite encode_loop_equation_1. simpl.
  destruct (Z_lt_dec 0 n); [| lia]. simpl.
  unfold BASE.
  rewrite Z.quot_div_nonneg, Z.rem_mod_nonneg by lia. reflexivity.
Qed.

Lemma encode_loop_stop (n : Z) (result : jsstring) :
  n <= 0 -> encode_loop n result = result.
Proof.
  intros Hn. rewrite encode_loop_equation_1. simpl.
  destruct (Z_lt_dec 0 n); [lia | reflexivity].
Qed.

(** [indexOf] finds the first occurrence, and only -1 when there is none. *)
Lemma indexOf_from_spec (s : jsstring) (c : code_unit) (i : Z) :
  (~ In c s /\ indexOf_from s c i = -1) \/
  (exists k, indexOf_from s c i = i + Z.of_nat k /\ nth_error s k = Some c).
Proof.
  revert i. induction s as [| x s IH]; intros i; simpl.
  - left. split; [tauto | reflexivity].
  - destruct (N.eqb_spec x c) as [-> | Hxc].
    + right. exists 0%nat. split; [lia | reflexivity].
    + destruct (IH (i + 1)) as [[Hnot Heq] | [k [Heq Hk]]].
      * left. split; [intros [H | H]; congruence | exact Heq].
      * right. exists (S k). split; [lia | exact Hk].
Qed.

Lemma indexOf_cases (s : jsstring) (c : code_unit) :
  (~ In c s /\ indexOf s c = -1) \/
  (In c s /\ 0 <= indexOf s c < Z.of_nat (List.length s) /\
   charAt s (indexOf s c) = Some c).
Proof.
  unfold indexOf. destruct (indexOf_from_spec s c 0) as [H | [k [Heq Hk]]].
  - left. exact H.
  - right. rewrite Heq.
    assert (k < List.length s)%nat by (apply nth_error_Some; congruence).
    split; [eapply nth_error_In; eassumption |].
    split; [lia |].
    unfold charAt. destruct (0 + Z.of_nat k <? 0) eqn:E; [lia |].
    replace (Z.to_nat (0 + Z.of_nat k)) with k by lia. exact Hk.
Qed.

Lemma charAt_indexOf (r : Z) :
  0 <= r < 62 ->
  exists c, charAt BASE62_CHARS r = Some c /\ indexOf BASE62_CHARS c = r.
Proof.
  intros Hr.
  assert (Hall : alphabet_check = true) by (vm_compute; reflexivity).
  unfold alphabet_check in Hall. rewrite forallb_forall in Hall.
  specialize (Hall (Z.to_nat r)).
  assert (Hin : In (Z.to_nat r) (seq 0 62)) by (apply in_seq; lia).
  specialize (Hall Hin).
  unfold charAt. destruct (r <? 0) eqn:E; [lia |].
  destruct (nth_error BASE62_CHARS (Z.to_nat r)) as [c |]; [| discriminate].
  exists c. split; [reflexivity |]. apply Z.eqb_eq in Hall. lia.
Qed.

Lemma indexOf_alphabet (c : code_unit) :
  In c BASE62_CHARS ->
  0 <= indexOf BASE62_CHARS c < 62 /\
  charAt BASE62_CHARS (indexOf BASE62_CHARS c) = Some c.
Proof.
  intros Hin. destruct (indexOf_cases BASE62_CHARS c) as [[Hn _] | [_ H]].
  - contradiction.
  - exact H.
Qed.

(** Decoding what the loop wrote in front of [result] amounts to starting
    the accumulation of [result] at [n]. *)
Lemma decode_encode_loop (n : Z) :
  0 <= n ->
  forall result,
    decode_loop (encode_loop n result) 0 = decode_loop result n.
Proof.
  intros Hn. generalize Hn. pattern n. apply Z_lt_induction; [| exact Hn].
  clear n Hn. intros n IH Hn result.
  destruct (Z.eq_dec n 0) as [-> | Hne].
  - rewrite encode_loop_stop by lia. reflexivity.
  - rewrite encode_loop_step by lia.
    pose proof (Z.mod_pos_bound n 62 ltac:(lia)) as Hr.
    destruct (charAt_indexOf (n mod 62) Hr) as [c [Hc Hi]].
    rewrite Hc. simpl prepend.
    assert (Hq : 0 <= n / 62 < n).
    { split; [apply Z.div_pos; lia | apply Z.div_lt; lia]. }
    rewrite (IH (n / 62) Hq) by lia. simpl decode_loop.
    rewrite Hi. destruct (n mod 62 =? -1) eqn:E; [lia |].
    f_equal. unfold BASE. pose proof (Z.div_mod n 62 ltac:(lia)). lia.
Qed.

(** The loop writes at least one character for a positive number, and the
    first one is not the zero digit. *)
Lemma encode_loop_head (n : Z) :
  0 < n ->
  forall result,
    exists c rest, encode_loop n result = c :: rest /\ c <> 48%N.
Proof.
  intros Hn. assert (H0 : 0 <= n) by lia. generalize Hn. pattern n.
  apply Z_lt_induction; [| exact H0].
  clear n Hn H0. intros n IH Hn result.
  rewrite encode_loop_step by lia.
  pose proof (Z.mod_pos_bound n 62 ltac:(lia)) as Hr.
  destruct (charAt_indexOf (n mod 62) Hr) as [c [Hc Hi]].
  rewrite Hc. simpl prepend.
  destruct (Z.eq_dec (n / 62) 0) as [Hz | Hnz].
  - rewrite Hz, encode_loop_stop by lia.
    exists c, result. split; [reflexivity |].
    intros ->. change (indexOf BASE62_CHARS 48%N) with 0 in Hi.
    pose proof (Z.div_mod n 62 ltac:(lia)). lia.
  - assert (Hq : 0 <= n / 62 < n).
    { split; [apply Z.div_pos; lia | apply Z.div_lt; lia]. }
    apply (IH (n / 62) Hq). lia.
Qed.

(** The loop only ever adds in front of [result]. *)
Lemma encode_loop_app (n : Z) :
  0 <= n ->
  forall result, encode_loop n result = encode_loop n [] ++ result.
Proof.
  intros Hn. generalize Hn. pattern n. apply Z_lt_induction; [| exact Hn].
  clear n Hn. intros n IH Hn result.
  destruct (Z.eq_dec n 0) as [-> | Hne].
  - rewrite !encode_loop_stop by lia. reflexivity.
  - rewrite !(encode_loop_step n) by lia.
    pose proof (Z.mod_pos_bound n 62 ltac:(lia)) as Hr.
    destruct (charAt_indexOf (n mod 62) Hr) as [c [Hc Hi]].
    rewrite Hc. simpl prepend.
    assert (Hq : 0 <= n / 62 < n).
    { split; [apply Z.div_pos; lia | apply Z.div_lt; lia]. }
    rewrite (IH (n / 62) Hq ltac:(lia) (c :: result)).
    rewrite (IH (n / 62) Hq ltac:(lia) [c]).
    rewrite <- app_assoc. reflexivity.
Qed.

Lemma encodeBase62_nonempty (n : Z) : 0 <= n -> encodeBase62 n <> [].
Proof.
  intros Hn. unfold encodeBase62. destruct (n =? 0) eqn:E.
  - vm_compute. discriminate.
  - destruct (encode_loop_head n ltac:(lia) []) as [c [rest [Heq _]]].
    rewrite Heq. discriminate.
Qed.

Lemma decode_encode (n : Z) :
  0 <= n -> decodeBase62 (encodeBase62 n) = Normal n.
Proof.
  intros Hn. unfold encodeBase62, decodeBase62. destruct (n =? 0) eqn:E.
  - apply Z.eqb_eq in E. subst n. vm_compute. reflexivity.
  - rewrite decode_encode_loop by exact Hn. reflexivity.
Qed.

(** Decoding accumulates from [num] upwards. *)
Lemma decode_loop_nonneg (str : jsstring) :
  forall num n, 0 <= num -> decode_loop str num = Normal n -> num <= n.
Proof.
  induction str as [| c str IH]; intros num n Hnum H; cbn [decode_loop] in H.
  - injection H as <-. lia.
  - destruct (indexOf_cases BASE62_CHARS c) as [[_ Hi] | [_ [Hi _]]].
    + rewrite Hi in H. simpl in H. discriminate.
    + destruct (indexOf BASE62_CHARS c =? -1) eqn:E; [discriminate |].
      apply IH in H; unfold BASE in *; lia.
Qed.

Lemma decode_loop_snoc (str : jsstring) (c : code_unit) :
  forall num v,
    decode_loop str num = Normal v ->
    decode_loop (str ++ [c]) num = decode_loop [c] v.
Proof.
  induction str as [| x str IH]; intros num v H; cbn [decode_loop] in H.
  - injection H as <-. reflexivity.
  - simpl app. cbn [decode_loop].
    destruct (indexOf BASE62_CHARS x =? -1); [discriminate |].
    apply IH. exact H.
Qed.

Lemma isBase62_indexOf (c : code_unit) :
  indexOf BASE62_CHARS c <> -1 -> isBase62 c.
Proof.
  intros Hi. destruct (indexOf_cases BASE62_CHARS c) as [[_ H] | [H _]].
  - contradiction.
  - exact H.
Qed.

Ltac alphabet_string :=
  repeat (apply Forall_cons;
          [apply isBase62_indexOf; vm_compute; discriminate |]);
  apply Forall_nil.

Lemma indexOf_zero (c : code_unit) :
  isBase62 c -> indexOf BASE62_CHARS c = 0 -> c = 48%N.
Proof.
  intros Hc H0. destruct (indexOf_alphabet c Hc) as [_ Hat].
  rewrite H0 in Hat. vm_compute in Hat. congruence.
Qed.

(** A string of the alphabet without a leading zero is what the loop writes
    for the number it decodes to. *)
Lemma encode_decode_loop (str : jsstring) :
  Forall isBase62 str ->
  noLeadingZero str ->
  exists v,
    decode_loop str 0 = Normal v /\ encode_loop v [] = str /\
    0 <= v /\ (str <> [] -> 0 < v).
Proof.
  induction str as [| c str IH] using rev_ind; intros Hall Hlead.
  - exists 0. repeat split; try lia; try reflexivity. congruence.
  - apply Forall_app in Hall. destruct Hall as [Hstr Hc].
    apply Forall_inv in Hc.
    assert (Hlead' : noLeadingZero str).
    { intros rest ->. apply (Hlead (rest ++ [c])). reflexivity. }
    destruct (IH Hstr Hlead') as [v [Hdec [Henc [Hv Hpos]]]].
    destruct (indexOf_alphabet c Hc) as [Hi Hat].
    set (d := indexOf BASE62_CHARS c) in *.
    assert (Hd : 0 < v * 62 + d).
    { destruct str as [| x str'].
      - cbn [decode_loop] in Hdec. injection Hdec as <-.
        assert (d <> 0); [| lia].
        intros H0. apply (Hlead []). simpl. f_equal.
        apply indexOf_zero; assumption.
      - assert (0 < v) by (apply Hpos; discriminate). lia. }
    exists (v * 62 + d). split; [| split; [| split]]; try lia.
    + rewrite (decode_loop_snoc str c 0 v Hdec). cbn [decode_loop].
      fold d. destruct (d =? -1) eqn:E; [lia | reflexivity].
    + rewrite encode_loop_step by lia.
      replace ((v * 62 + d) / 62) with v
        by (apply (Z.div_unique _ _ v d); lia).
      replace ((v * 62 + d) mod 62) with d
        by (apply (Z.mod_unique _ _ v d); lia).
      rewrite Hat. simpl prepend.
      rewrite encode_loop_app by lia. rewrite Henc. reflexivity.
Qed.

(** What [decodeBase62] does at the first character outside the alphabet,
    and that it reads every character before it. *)
Lemma decode_loop_invalid (str : jsstring) :
  Exists (fun c => ~ isBase62 c) str ->
  forall num,
    exists prefix char suffix,
      str = prefix ++ char :: suffix /\ Forall isBase62 prefix /\
      ~ isBase62 char /\
      decode_loop str num =
      Throw (Error (js "Invalid Base62 character: " ++ [char])).
Proof.
  induction str as [| c str IH]; intros Hex num.
  - inversion Hex.
  - cbn [decode_loop].
    destruct (indexOf_cases BASE62_CHARS c) as [[Hout Hi] | [Hin [Hi _]]].
    + exists [], c, str. rewrite Hi.
      split; [reflexivity |]. split; [constructor |].
      split; [exact Hout | reflexivity].
    + destruct (indexOf BASE62_CHARS c =? -1) eqn:E; [lia |].
      inversion Hex as [? ? Hbad | ? ? Hrest]; subst; [contradiction |].
      destruct (IH Hrest (num * BASE + indexOf BASE62_CHARS c))
        as [prefix [char [suffix [Heq [Hpre [Hbad Hthrow]]]]]].
      exists (c :: prefix), char, suffix.
      split; [rewrite Heq; reflexivity |].
      split; [constructor; assumption |].
      split; [exact Hbad | exact Hthrow].
Qed.

Lemma decode_loop_valid (str : jsstring) :
  Forall isBase62 str -> forall num, exists n, decode_loop str num = Normal n.
Proof.
  induction 1 as [| c str Hc _ IH]; intros num; cbn [decode_loop].
  - exists num. reflexivity.
  - destruct (indexOf_alphabet c Hc) as [Hi _].
    destruct (indexOf BASE62_CHARS c =? -1) eqn:E; [lia |]. apply IH.
Qed.

(** A negative number is outside the domain of [encodeBase62]: the loop is
    not entered. *)
Lemma encodeBase62_negative (n : Z) : n < 0 -> encodeBase62 n = [].
Proof.
  intros Hn. unfold encodeBase62. destruct (n =? 0) eqn:E; [lia |].
  apply encode_loop_stop. lia.
Qed.

(** The values the source and its documentation quote. *)
Example encodeBase62_1000 : encodeBase62 1000 = js "g8".
Proof. reflexivity. Qed.

Example encodeBase62_max64 : encodeBase62 (2 ^ 64 - 1) = js "lYGhA16ahyf".
Proof. reflexivity. Qed.

Example decodeBase62_max64 :
  decodeBase62 (js "lYGhA16ahyf") = Normal 18446744073709551615.
Proof. reflexivity. Qed.

Example decodeBase62_rejects :
  decodeBase62 (js "abc!def") = Throw (Error (js "Invalid Base62 character: !")).
Proof. reflexivity. Qed.

(** C1. For every non-negative integer [n], 2^64-1 and beyond,
    [decodeBase62 (encodeBase62 n)] is [n]; hence [encodeBase62] is injective
    on the non-negative integers. *)
Theorem decode_encode_roundtrip :
  (forall n, 0 <= n -> decodeBase62 (encodeBase62 n) = Normal n) /\
  (forall a b, 0 <= a -> 0 <= b -> encodeBase62 a = encodeBase62 b -> a = b).
Proof.
  split.
  - exact decode_encode.
  - intros a b Ha Hb Heq.
    pose proof (decode_encode a Ha) as Hda.
    rewrite Heq, (decode_encode b Hb) in Hda. congruence.
Qed.

Lemma decode_encode_roundtrip_witness :
  decodeBase62 (encodeBase62 (2 ^ 64 - 1)) = Normal (2 ^ 64 - 1) /\
  (encodeBase62 61 = encodeBase62 61 -> 61 = 61).
Proof.
  split.
  - apply (proj1 decode_encode_roundtrip). lia.
  - apply (proj2 decode_encode_roundtrip); lia.
Defined.

(** C7. [encodeBase62 0] is the one-character string of the first alphabet
    character, no non-negative input is encoded as the empty string, and
    [decodeBase62] of that string is 0. *)
Theorem encodeBase62_zero :
  encodeBase62 0 = js "0" /\
  (forall n, 0 <= n -> encodeBase62 n <> []) /\
  decodeBase62 (js "0") = Normal 0.
Proof.
  split; [reflexivity |]. split; [exact encodeBase62_nonempty | reflexivity].
Qed.

Lemma encodeBase62_zero_witness : encodeBase62 62 <> [].
Proof.
  apply (proj1 (proj2 encodeBase62_zero)). lia.
Defined.

(** C9. [decodeBase62] of the empty string completes normally with 0,
    although [encodeBase62] produces the empty string for no number that is
    not negative.  For every negative BigInt it does produce the empty
    string. *)
Theorem decodeBase62_empty :
  decodeBase62 [] = Normal 0 /\
  (forall n, 0 <= n -> encodeBase62 n <> []) /\
  (forall n, n < 0 -> encodeBase62 n = []).
Proof.
  split; [reflexivity |].
  split; [exact encodeBase62_nonempty | exact encodeBase62_negative].
Qed.

Lemma decodeBase62_empty_witness :
  encodeBase62 0 <> [] /\ encodeBase62 (-5) = [].
Proof.
  split.
  - apply (proj1 (proj2 decodeBase62_empty)). lia.
  - apply (proj2 (proj2 decodeBase62_empty)). lia.
Defined.

(** C9, as stated, fails: the empty string is produced by [encodeBase62].
    The BigInt -5 is encoded as the empty string, which decodes to 0. *)
Lemma encodeBase62_produces_empty :
  encodeBase62 (-5) = [] /\
  decodeBase62 (encodeBase62 (-5)) = Normal 0 /\
  ~ (forall n, encodeBase62 n <> []).
Proof.
  assert (H5 : encodeBase62 (-5) = []) by (apply encodeBase62_negative; lia).
  split; [exact H5 |]. split; [rewrite H5; reflexivity |].
  intros H. exact (H (-5) H5).
Qed.

(** C10. [decodeBase62] is not injective on the strings of the alphabet:
    "0" and "00" are distinct and both decode to 0; so some string of the
    alphabet is not the encoding of what it decodes to.  A string that is,
    is "0" or has no leading zero digit; and every non-empty string of the
    alphabet of that form is. *)
Theorem decodeBase62_not_injective :
  (js "0" <> js "00" /\
   Forall isBase62 (js "0") /\ Forall isBase62 (js "00") /\
   decodeBase62 (js "0") = Normal 0 /\ decodeBase62 (js "00") = Normal 0) /\
  (exists s n,
     Forall isBase62 s /\ decodeBase62 s = Normal n /\ encodeBase62 n <> s) /\
  (forall s n,
     decodeBase62 s = Normal n -> encodeBase62 n = s ->
     s = js "0" \/ noLeadingZero s) /\
  (forall s,
     Forall isBase62 s -> s <> [] -> s = js "0" \/ noLeadingZero s ->
     exists n, decodeBase62 s = Normal n /\ encodeBase62 n = s).
Proof.
  assert (Hzero : isBase62 48%N) by (vm_compute; tauto).
  split; [| split; [| split]].
  - split; [discriminate |].
    split; [repeat constructor; exact Hzero |].
    split; [repeat constructor; exact Hzero |].
    split; reflexivity.
  - exists (js "00"), 0.
    split; [repeat constructor; exact Hzero |].
    split; [reflexivity | discriminate].
  - intros s n Hdec Henc.
    assert (Hn : 0 <= n) by (apply (decode_loop_nonneg s 0 n); [lia | exact Hdec]).
    destruct (Z.eq_dec n 0) as [-> | Hne].
    + left. rewrite <- Henc. reflexivity.
    + right. intros rest Hs.
      unfold encodeBase62 in Henc. destruct (n =? 0) eqn:E; [lia |].
      destruct (encode_loop_head n ltac:(lia) []) as [c [rest' [Heq Hc]]].
      congruence.
  - intros s Hall Hne [-> | Hlead].
    + exists 0. split; reflexivity.
    + destruct (encode_decode_loop s Hall Hlead) as [v [Hdec [Henc [_ Hpos]]]].
      exists v. split; [exact Hdec |].
      unfold encodeBase62. specialize (Hpos Hne).
      destruct (v =? 0) eqn:E; [lia | exact Henc].
Qed.

Lemma decodeBase62_not_injective_witness :
  (js "g8" = js "0" \/ noLeadingZero (js "g8")) /\
  (exists n, decodeBase62 (js "g8") = Normal n /\ encodeBase62 n = js "g8").
Proof.
  split.
  - apply (proj1 (proj2 (proj2 decodeBase62_not_injective)) (js "g8") 1000);
      reflexivity.
  - apply (proj2 (proj2 (proj2 decodeBase62_not_injective))).
    + alphabet_string.
    + discriminate.
    + right. intros rest. discriminate.
Defined.

(** C6, as stated, fails: the error does not tell the position.  The strings
    "!" and "0!" have their first invalid character at the indices 0 and 1
    and are rejected with the same error. *)
Lemma decodeBase62_error_omits_position :
  decodeBase62 (js "!") = Throw (Error (js "Invalid Base62 character: !")) /\
  decodeBase62 (js "0!") = Throw (Error (js "Invalid Base62 character: !")) /\
  firstInvalid (js "!") = Some 0%nat /\
  firstInvalid (js "0!") = Some 1%nat /\
  ~ (exists position : exn -> nat,
       forall str e,
         decodeBase62 str = Throw e -> firstInvalid str = Some (position e)).
Proof.
  split; [reflexivity |]. split; [reflexivity |].
  split; [reflexivity |]. split; [reflexivity |].
  intros [position H].
  pose proof (H (js "!") _ eq_refl) as H0.
  pose proof (H (js "0!") _ eq_refl) as H1.
  vm_compute in H0, H1. congruence.
Qed.

(** C6, amended. A string with a character outside the alphabet is rejected:
    [decodeBase62] throws an [Error] whose message ends with the first such
    character (and holds no position), whatever precedes and follows it; the
    character is neither replaced nor skipped.  A string of alphabet
    characters only is decoded without a throw. *)
Theorem decodeBase62_rejects_invalid (str : jsstring) :
  (Exists (fun c => ~ isBase62 c) str ->
   exists prefix char suffix,
     str = prefix ++ char :: suffix /\ Forall isBase62 prefix /\
     ~ isBase62 char /\
     decodeBase62 str =
     Throw (Error (js "Invalid Base62 character: " ++ [char]))) /\
  (Forall isBase62 str -> exists n, decodeBase62 str = Normal n).
Proof.
  split.
  - intros Hex. apply decode_loop_invalid. exact Hex.
  - intros Hall. apply decode_loop_valid. exact Hall.
Qed.

Lemma decodeBase62_rejects_invalid_witness :
  (exists prefix char suffix,
     js "abc!def" = prefix ++ char :: suffix /\ Forall isBase62 prefix /\
     ~ isBase62 char /\
     decodeBase62 (js "abc!def") =
     Throw (Error (js "Invalid Base62 character: " ++ [char]))) /\
  (exists n, decodeBase62 (js "abc") = Normal n).
Proof.
  split.
  - apply (proj1 (decodeBase62_rejects_invalid (js "abc!def"))).
    do 3 apply Exists_cons_tl. apply Exists_cons_hd.
    intros H. vm_compute in H.
    repeat (destruct H as [H | H]; [discriminate H |]). exact H.
  - apply (proj2 (decodeBase62_rejects_invalid (js "abc"))).
    alphabet_string.
Defined.

End Base62Facts.

(** ** The generator *)

Module IdGeneratorFacts.
Import IdGenerator.

(** Bit fields that do not overlap add up. *)
Lemma lor_shiftl_add (a b k : Z) :
  0 <= k -> 0 <= b < 2 ^ k -> Z.lor (Z.shiftl a k) b = a * 2 ^ k + b.
Proof.
  intros Hk Hb.
  assert (Hdisj : Z.land (Z.shiftl a k) b = 0).
  { apply Z.bits_inj'. intros n Hn.
    rewrite Z.land_spec, Z.bits_0.
    destruct (Z.lt_ge_cases n k) as [Hlt | Hge].
    - rewrite Z.shiftl_spec_low by exact Hlt. reflexivity.
    - destruct (Z.eq_dec b 0) as [-> | Hb0].
      + rewrite Z.bits_0. apply andb_false_r.
      + rewrite (Z.bits_above_log2 b n); [apply andb_false_r | lia |].
        apply Z.log2_lt_pow2; [lia |].
        apply Z.lt_le_trans with (2 ^ k); [lia |].
        apply Z.pow_le_mono_r; lia. }
  rewrite <- Z.lxor_lor by exact Hdisj.
  rewrite <- Z.add_nocarry_lxor by exact Hdisj.
  rewrite Z.shiftl_mul_pow2 by exact Hk. reflexivity.
Qed.

Lemma composeId_sum (t m s : Z) :
  0 <= m <= 1023 -> 0 <= s <= 4095 ->
  composeId t m s = t * 4194304 + m * 4096 + s.
Proof.
  intros Hm Hs. unfold composeId, MACHINE_ID_BITS, SEQUENCE_BITS.
  change (10 + 12) with 22.
  rewrite (Z.shiftl_mul_pow2 m 12) by lia.
  rewrite (lor_shiftl_add t (m * 2 ^ 12) 22) by lia.
  replace (t * 2 ^ 22 + m * 2 ^ 12) with ((t * 2 ^ 10 + m) * 2 ^ 12) by lia.
  rewrite <- (Z.shiftl_mul_pow2 (t * 2 ^ 10 + m) 12) by lia.
  rewrite (lor_shiftl_add (t * 2 ^ 10 + m) s 12) by lia.
  lia.
Qed.

Lemma parseId_sum (t m s : Z) :
  0 <= t < 2 ^ 41 -> 0 <= m <= 1023 -> 0 <= s <= 4095 ->
  parseId (t * 4194304 + m * 4096 + s) =
  {| Parsed.timestamp := t; Parsed.machineId := m; Parsed.sequence := s;
     Parsed.date := t + EPOCH |}.
Proof.
  intros Ht Hm Hs. unfold parseId, MACHINE_ID_BITS, SEQUENCE_BITS.
  change (10 + 12) with 22.
  change 2199023255551 with (Z.ones 41).
  change MAX_MACHINE_ID with (Z.ones 10).
  change MAX_SEQUENCE with (Z.ones 12).
  rewrite !Z.land_ones, !Z.shiftr_div_pow2 by lia.
  set (id := t * 4194304 + m * 4096 + s).
  assert (H22 : id / 2 ^ 22 = t).
  { symmetry. apply (Z.div_unique id (2 ^ 22) t (m * 4096 + s)); subst id; lia. }
  assert (H12 : id / 2 ^ 12 = t * 1024 + m).
  { symmetry. apply (Z.div_unique id (2 ^ 12) (t * 1024 + m) s); subst id; lia. }
  assert (Hs12 : id mod 2 ^ 12 = s).
  { symmetry. apply (Z.mod_unique id (2 ^ 12) (t * 1024 + m) s); subst id; lia. }
  assert (Hm10 : (t * 1024 + m) mod 2 ^ 10 = m).
  { symmetry. apply (Z.mod_unique _ (2 ^ 10) t m); lia. }
  rewrite H22, H12, Hs12, Hm10, (Z.mod_small t) by lia.
  reflexivity.
Qed.

(** C5. In the ranges of the three fields, [parseId] reads back what was
    composed; so with the same node two identifiers are equal exactly when
    their timestamps and sequences are, and identifiers of distinct nodes
    differ. *)
Theorem parseId_composeId (t m s : Z) :
  0 <= t < 2 ^ 41 -> 0 <= m <= 1023 -> 0 <= s <= 4095 ->
  parseId (composeId t m s) =
  {| Parsed.timestamp := t; Parsed.machineId := m; Parsed.sequence := s;
     Parsed.date := t + EPOCH |} /\
  (forall t' s',
     0 <= t' < 2 ^ 41 -> 0 <= s' <= 4095 ->
     composeId t m s = composeId t' m s' <-> (t, s) = (t', s')) /\
  (forall t' m' s',
     0 <= t' < 2 ^ 41 -> 0 <= m' <= 1023 -> 0 <= s' <= 4095 ->
     m <> m' -> composeId t m s <> composeId t' m' s').
Proof.
  intros Ht Hm Hs. split; [| split].
  - rewrite composeId_sum by assumption. apply parseId_sum; assumption.
  - intros t' s' Ht' Hs'. rewrite !composeId_sum by assumption. split.
    + intros Heq. f_equal; lia.
    + intros [= -> ->]. reflexivity.
  - intros t' m' s' Ht' Hm' Hs' Hne. rewrite !composeId_sum by assumption.
    intros Heq. apply Hne.
    assert (t = t') by lia. subst t'. lia.
Qed.

Lemma parseId_composeId_witness :
  parseId (composeId 7 5 1) =
  {| Parsed.timestamp := 7; Parsed.machineId := 5; Parsed.sequence := 1;
     Parsed.date := 7 + EPOCH |} /\
  (composeId 7 5 1 = composeId 7 5 1 <-> (7, 1) = (7, 1)) /\
  composeId 7 5 1 <> composeId 7 6 1.
Proof.
  assert (H : 0 <= 7 < 2 ^ 41 /\ 0 <= 5 <= 1023 /\ 0 <= 1 <= 4095) by lia.
  destruct H as [Ht [Hm Hs]].
  destruct (parseId_composeId 7 5 1 Ht Hm Hs) as [Hparse [Hsame Hother]].
  split; [exact Hparse |]. split.
  - apply Hsame; lia.
  - apply Hother; lia.
Defined.

(** [generateId], path by path. *)
Lemma generateId_eq (machineId : number) (w : World) :
  generateId machineId w =
  match clock w with
  | [] => None
  | now :: rest =>
      let timestamp := now - EPOCH in
      if timestamp <? lastTimestamp w then
        Some (Throw (skewError (lastTimestamp w - timestamp)),
              {| sequence := sequence w; lastTimestamp := lastTimestamp w;
                 clock := rest |})
      else if timestamp =? lastTimestamp w then
        let seq := Number_and (sequence w + 1) MAX_SEQUENCE in
        if seq =? 0 then
          match poll (lastTimestamp w) rest with
          | None => None
          | Some (timestamp', rest') => finish machineId timestamp' 0 rest'
          end
        else finish machineId timestamp seq rest
      else finish machineId timestamp 0 rest
  end.
Proof.
  unfold generateId, bind, Date_now, get, throw, set_sequence,
    set_lastTimestamp, waitNextMillis, lift, ret, finish, skewError.
  destruct w as [seq last readings]; cbn [clock sequence lastTimestamp].
  destruct readings as [| now rest]; [reflexivity |].
  cbn [clock sequence lastTimestamp].
  destruct (now - EPOCH <? last); [reflexivity |].
  destruct (now - EPOCH =? last); cbn [clock sequence lastTimestamp].
  - destruct (Number_and (seq + 1) MAX_SEQUENCE =? 0);
      cbn [clock sequence lastTimestamp].
    + destruct (poll last rest) as [[timestamp' rest'] |]; [| reflexivity].
      cbn [clock sequence lastTimestamp].
      destruct machineId; reflexivity.
    + destruct machineId; reflexivity.
  - destruct machineId; reflexivity.
Qed.



Lemma poll_later (last : Z) (readings : list Z) (timestamp : Z) (rest : list Z) :
  poll last readings = Some (timestamp, rest) -> last < timestamp.
Proof.
  induction readings as [| r readings IH]; simpl; [discriminate |].
  destruct (r - EPOCH <=? last) eqn:E; [exact IH |].
  intros [= <- _]. lia.
Qed.

Lemma land_MAX_SEQUENCE (x : Z) : Number_and x MAX_SEQUENCE = x mod 4096.
Proof.
  unfold Number_and. change (ToInt32 MAX_SEQUENCE) with (Z.ones 12).
  rewrite Z.land_ones by lia. unfold ToInt32.
  change (2 ^ 31) with (524288 * 2 ^ 12).
  rewrite <- Z.add_opp_r, <- Z.mul_opp_l, Z.mod_add by lia.
  rewrite Z.mod_mod_divide by (exists (2 ^ 20); reflexivity).
  rewrite Z.mod_add by lia. reflexivity.
Qed.

(** The message of the clock-skew error determines the regression it was
    built from. *)
Lemma js_inj (a b : string) : js a = js b -> a = b.
Proof.
  revert b. induction a as [| c a IH]; intros [| d b]; cbn;
    try discriminate; [reflexivity |].
  intros [= Hc Hrest]. f_equal.
  - rewrite <- (ascii_N_embedding c), Hc. apply ascii_N_embedding.
  - apply IH. exact Hrest.
Qed.

Lemma Number_toString_inj (a b : Z) :
  Number_toString a = Number_toString b -> a = b.
Proof.
  unfold Number_toString. intros H. apply js_inj in H.
  assert (Hnonnil : forall z, Z.to_int z <> Decimal.Pos Decimal.Nil /\
                              Z.to_int z <> Decimal.Neg Decimal.Nil).
  { intros [| p | p]; cbn; split; try discriminate;
      intros [= Hp]; exact (DecimalPos.Unsigned.to_uint_nonnil p Hp). }
  apply DecimalZ.to_int_inj.
  destruct (Hnonnil a) as [Ha1 Ha2]. destruct (Hnonnil b) as [Hb1 Hb2].
  pose proof (NilZero.isi _ Ha1 Ha2) as Ia.
  pose proof (NilZero.isi _ Hb1 Hb2) as Ib.
  rewrite H in Ia. congruence.
Qed.

Lemma skewError_inj (a b : Z) : skewError a = skewError b -> a = b.
Proof.
  unfold skewError. intros [= H].
  apply app_inv_tail in H.
  apply Number_toString_inj. exact H.
Qed.

(** C3. When the reading is earlier than [lastTimestamp], [generateId] throws
    an [Error] whose message holds the regression in milliseconds,
    [lastTimestamp - timestamp], and leaves [lastTimestamp] and [sequence]
    as they were. *)
Theorem generateId_clock_skew
    (machineId : number) (w : World) (now : Z) (rest : list Z) :
  clock w = now :: rest ->
  now - EPOCH < lastTimestamp w ->
  exists w',
    generateId machineId w =
    Some (Throw (Error (js "Clock moved backward. Refusing to generate ID for "
                          ++ Number_toString (lastTimestamp w - (now - EPOCH))
                          ++ js "ms")), w') /\
    lastTimestamp w' = lastTimestamp w /\
    sequence w' = sequence w /\
    clock w' = rest.
Proof.
  intros Hclock Hskew. rewrite generateId_eq, Hclock. cbn zeta.
  destruct (now - EPOCH <? lastTimestamp w) eqn:E; [| lia].
  eexists. split; [reflexivity |]. repeat split.
Qed.

Lemma generateId_clock_skew_witness :
  exists w',
    generateId (Int 5)
      {| sequence := 3; lastTimestamp := 2000; clock := [EPOCH + 1000] |} =
    Some (Throw (Error (js "Clock moved backward. Refusing to generate ID for 1000ms")),
          w') /\
    lastTimestamp w' = 2000 /\ sequence w' = 3 /\ clock w' = [].
Proof.
  apply (generateId_clock_skew (Int 5)
           {| sequence := 3; lastTimestamp := 2000; clock := [EPOCH + 1000] |}
           (EPOCH + 1000) []).
  - reflexivity.
  - reflexivity.
Defined.

Example getMachineId_42 :
  getMachineId {| MACHINE_ID := Some (js "42"); hostname := js "web-1" |} =
  Normal (Int 42).
Proof. reflexivity. Qed.

Example getMachineId_1024 :
  getMachineId {| MACHINE_ID := Some (js "1024"); hostname := js "web-1" |} =
  Throw (Error (js "MACHINE_ID must be between 0 and 1023")).
Proof. reflexivity. Qed.

Example getMachineId_web1 :
  getMachineId {| MACHINE_ID := None; hostname := js "web-1" |} =
  Normal (Int 1016).
Proof. reflexivity. Qed.

(** Two calls in one millisecond, a reading that went backward, and a call
    in the next millisecond. *)
Example run_four :
  run (Int 5) 4 (init [EPOCH + 7; EPOCH + 7; EPOCH + 6; EPOCH + 8]) =
  [Normal 29380608; Normal 29380609; Throw (skewError 1); Normal 33574912].
Proof. reflexivity. Qed.

(** A node identifier that [getMachineId] returns as an integer is in
    range, on both paths. *)
Lemma getMachineId_range (env : Env) (k : Z) :
  getMachineId env = Normal (Int k) -> 0 <= k <= 1023.
Proof.
  unfold getMachineId. destruct (MACHINE_ID env) as [value |].
  - destruct (parseInt value) as [| z]; cbn [number_ltb orb].
    + discriminate.
    + change MAX_MACHINE_ID with 1023.
      destruct (z <? 0) eqn:E0; [discriminate |].
      destruct (1023 <? z) eqn:E1; [discriminate |].
      cbn [orb]. intros [= <-]. lia.
  - intros [= <-]. unfold Number_and.
    change (ToInt32 MAX_MACHINE_ID) with (Z.ones 10).
    rewrite Z.land_ones by lia.
    pose proof (Z.mod_pos_bound (ToInt32 (Z.abs (hash_loop (hostname env) 0)))
                  (2 ^ 10) ltac:(lia)).
    lia.
Qed.

(** The hostname path neither throws nor returns [NaN]. *)
Lemma getMachineId_hostname (env : Env) :
  MACHINE_ID env = None ->
  exists k, getMachineId env = Normal (Int k) /\ 0 <= k <= 1023.
Proof.
  intros Hnone. unfold getMachineId. rewrite Hnone.
  eexists. split; [reflexivity |].
  apply (getMachineId_range env). unfold getMachineId. rewrite Hnone.
  reflexivity.
Qed.

(** The configured path: an integer in range is returned, an integer out of
    range is refused, and a value that does not start with a number is
    returned as [NaN]. *)
Lemma getMachineId_configured (env : Env) (value : jsstring) :
  MACHINE_ID env = Some value ->
  match parseInt value with
  | Int z =>
      if (0 <=? z) && (z <=? 1023) then getMachineId env = Normal (Int z)
      else exists e, getMachineId env = Throw e
  | NaN => getMachineId env = Normal NaN
  end.
Proof.
  intros Hsome. unfold getMachineId. rewrite Hsome.
  destruct (parseInt value) as [| z]; cbn [number_ltb orb]; [reflexivity |].
  change MAX_MACHINE_ID with 1023.
  destruct (Z.ltb_spec z 0), (Z.ltb_spec 1023 z),
    (Z.leb_spec 0 z), (Z.leb_spec z 1023);
    cbn [orb andb]; try lia; try reflexivity; eexists; reflexivity.
Qed.

(** What a successful call leaves behind. *)
Lemma generateId_Normal (machineId : number) (w w' : World) (id : Z) :
  generateId machineId w = Some (Normal id, w') ->
  exists k,
    machineId = Int k /\
    id = composeId (lastTimestamp w') k (sequence w') /\
    0 <= sequence w' <= 4095 /\
    (lastTimestamp w < lastTimestamp w' \/
     (lastTimestamp w' = lastTimestamp w /\
      sequence w' = (sequence w + 1) mod 4096 /\ sequence w' <> 0)).
Proof.
  rewrite generateId_eq.
  destruct (clock w) as [| now rest]; [discriminate |]. cbn zeta.
  destruct (Z.ltb_spec (now - EPOCH) (lastTimestamp w)); [discriminate |].
  destruct (Z.eqb_spec (now - EPOCH) (lastTimestamp w)) as [Heq | Hne].
  - rewrite land_MAX_SEQUENCE.
    pose proof (Z.mod_pos_bound (sequence w + 1) 4096 ltac:(lia)) as Hmod.
    destruct (Z.eqb_spec ((sequence w + 1) mod 4096) 0) as [Hz | Hnz].
    + destruct (poll (lastTimestamp w) rest) as [[timestamp' rest'] |] eqn:Hp;
        [| discriminate].
      apply poll_later in Hp.
      unfold finish. destruct machineId as [| k]; [discriminate |].
      intros [= <- <-]. exists k. cbn. repeat split; solve [reflexivity | lia].
    + unfold finish. destruct machineId as [| k]; [discriminate |].
      intros [= <- <-]. exists k. cbn. repeat split; solve [reflexivity | lia].
  - unfold finish. destruct machineId as [| k]; [discriminate |].
    intros [= <- <-]. exists k. cbn. repeat split; solve [reflexivity | lia].
Qed.

(** A call that throws either found a clock that moved backward, and wrote
    nothing, or could not convert the node identifier. *)
Lemma generateId_Throw (machineId : number) (w w' : World) (e : exn) :
  generateId machineId w = Some (Throw e, w') ->
  machineId = NaN \/
  (lastTimestamp w' = lastTimestamp w /\ sequence w' = sequence w).
Proof.
  rewrite generateId_eq.
  destruct (clock w) as [| now rest]; [discriminate |]. cbn zeta.
  destruct (now - EPOCH <? lastTimestamp w).
  - intros [= _ <-]. right. split; reflexivity.
  - destruct machineId as [| k]; [left; reflexivity |].
    unfold finish.
    destruct (now - EPOCH =? lastTimestamp w);
      [destruct (Number_and (sequence w + 1) MAX_SEQUENCE =? 0);
       [destruct (poll (lastTimestamp w) rest) as [[? ?] |] |] |];
      discriminate.
Qed.

Lemma StronglySorted_lt_NoDup (l : list Z) : StronglySorted Z.lt l -> NoDup l.
Proof.
  induction 1 as [| x l _ IH Hall]; constructor; [| exact IH].
  intros Hin. rewrite Forall_forall in Hall. specialize (Hall x Hin). lia.
Qed.

(** Every identifier minted from a state on is above the identifier that
    the state stands for. *)
Lemma run_above (k : Z) (n : nat) :
  0 <= k <= 1023 ->
  forall w,
    0 <= sequence w <= 4095 ->
    Forall (fun id => composeId (lastTimestamp w) k (sequence w) < id)
           (successes (run (Int k) n w)) /\
    StronglySorted Z.lt (successes (run (Int k) n w)).
Proof.
  intros Hk. induction n as [| n IH]; intros w Hseq; cbn [run].
  - split; constructor.
  - destruct (generateId (Int k) w) as [[[id | e] w'] |] eqn:Hcall;
      cbn [successes].
    + destruct (generateId_Normal _ _ _ _ Hcall)
        as [k' [[= <-] [Hid [Hseq' Hstep]]]].
      destruct (IH w' Hseq') as [Habove Hsorted]. rewrite <- Hid in Habove.
      assert (Hlt : composeId (lastTimestamp w) k (sequence w) < id).
      { rewrite Hid, !composeId_sum by lia.
        destruct Hstep as [Hnew | [Hsame [Hs Hnz]]]; [lia |].
        rewrite Hsame. rewrite Z.mod_small in Hs; [lia |].
        destruct (Z.eq_dec (sequence w) 4095) as [E | E]; [| lia].
        rewrite E in Hs. change ((4095 + 1) mod 4096) with 0 in Hs. lia. }
      split.
      * constructor; [exact Hlt |].
        eapply Forall_impl; [| exact Habove]. cbn. intros; lia.
      * constructor; assumption.
    + destruct (generateId_Throw _ _ _ _ Hcall) as [[=] | [Hl Hs]].
      destruct (IH w' ltac:(lia)) as [Habove Hsorted].
      rewrite Hl, Hs in Habove. split; assumption.
    + split; constructor.
Qed.

(** C2. The identifiers of the successful calls on one generator, whatever
    calls failed in between and whatever the clock read, are strictly
    increasing in the order of the calls, hence pairwise distinct.  (A
    reading that went backward makes its call fail, so the clock needs no
    assumption.) *)
Theorem generateId_unique
    (env : Env) (machineId : number) (n : nat) (w : World) :
  getMachineId env = Normal machineId ->
  StronglySorted Z.lt (successes (run machineId n w)) /\
  NoDup (successes (run machineId n w)).
Proof.
  intros Henv.
  assert (Hsorted : StronglySorted Z.lt (successes (run machineId n w))).
  { revert w. induction n as [| n IH]; intros w; cbn [run].
    - constructor.
    - destruct (generateId machineId w) as [[[id | e] w'] |] eqn:Hcall;
        cbn [successes].
      + destruct (generateId_Normal _ _ _ _ Hcall)
          as [k [-> [Hid [Hseq' _]]]].
        pose proof (getMachineId_range env k Henv) as Hk.
        destruct (run_above k n Hk w' Hseq') as [Habove Hs].
        rewrite <- Hid in Habove. constructor; assumption.
      + apply IH.
      + constructor. }
  split; [exact Hsorted | apply StronglySorted_lt_NoDup; exact Hsorted].
Qed.

Lemma generateId_unique_witness :
  StronglySorted Z.lt
    (successes (run (Int 5) 4 (init [EPOCH + 7; EPOCH + 7; EPOCH + 6; EPOCH + 8]))) /\
  NoDup
    (successes (run (Int 5) 4 (init [EPOCH + 7; EPOCH + 7; EPOCH + 6; EPOCH + 8]))).
Proof.
  apply (generateId_unique {| MACHINE_ID := Some (js "5"); hostname := [] |}).
  reflexivity.
Defined.

(** C8 fails on the code: a configured value that does not start with a
    number, here "abc", is neither refused nor in range.  [getMachineId]
    returns [NaN], and every later call of [generateId] throws the
    [RangeError] of [BigInt(NaN)]. *)
Theorem getMachineId_not_a_number :
  getMachineId {| MACHINE_ID := Some (js "abc"); hostname := js "web-1" |} =
  Normal NaN /\
  run NaN 2 (init [EPOCH + 5; EPOCH + 6]) = [Throw RangeError; Throw RangeError].
Proof.
  split; reflexivity.
Qed.

(** The three paths of a call that does not fail. *)
Lemma generateId_new_ms (k : Z) (w : World) (now : Z) (rest : list Z) :
  clock w = now :: rest ->
  lastTimestamp w < now - EPOCH ->
  generateId (Int k) w =
  Some (Normal (composeId (now - EPOCH) k 0),
        {| sequence := 0; lastTimestamp := now - EPOCH; clock := rest |}).
Proof.
  intros Hclock Hnew. rewrite generateId_eq, Hclock. cbn zeta.
  destruct (Z.ltb_spec (now - EPOCH) (lastTimestamp w)); [lia |].
  destruct (Z.eqb_spec (now - EPOCH) (lastTimestamp w)); [lia |].
  reflexivity.
Qed.

Lemma generateId_same_ms (k : Z) (w : World) (now : Z) (rest : list Z) :
  clock w = now :: rest ->
  now - EPOCH = lastTimestamp w ->
  (sequence w + 1) mod 4096 <> 0 ->
  generateId (Int k) w =
  Some (Normal (composeId (lastTimestamp w) k ((sequence w + 1) mod 4096)),
        {| sequence := (sequence w + 1) mod 4096;
           lastTimestamp := lastTimestamp w; clock := rest |}).
Proof.
  intros Hclock Hsame Hnz. rewrite generateId_eq, Hclock. cbn zeta.
  rewrite land_MAX_SEQUENCE, Hsame.
  rewrite Z.ltb_irrefl, Z.eqb_refl.
  destruct (Z.eqb_spec ((sequence w + 1) mod 4096) 0); [contradiction |].
  reflexivity.
Qed.



(** [j] calls within the millisecond of [lastTimestamp], below the bound of
    the sequence. *)
Lemma run_same_ms (k now : Z) (j : nat) :
  forall (a n : nat) (tail : list Z) (w : World),
    clock w = repeat now j ++ tail ->
    lastTimestamp w = now - EPOCH ->
    sequence w = Z.of_nat a ->
    Z.of_nat a + Z.of_nat j <= 4095 ->
    run (Int k) (j + n) w =
    map (fun i => Normal (composeId (now - EPOCH) k (Z.of_nat i))) (seq (S a) j)
    ++ run (Int k) n
         {| sequence := Z.of_nat (a + j); lastTimestamp := now - EPOCH;
            clock := tail |}.
Proof.
  induction j as [| j IH]; intros a n tail w Hclock Hlast Hseq Hbound.
  - cbn [repeat app seq map Nat.add]. rewrite Nat.add_0_r.
    destruct w as [s l c]. cbn in Hclock, Hlast, Hseq. subst. reflexivity.
  - cbn [repeat app] in Hclock. cbn [Nat.add run seq map app].
    assert (Hmod : (sequence w + 1) mod 4096 = Z.of_nat (S a)).
    { rewrite Hseq, Z.mod_small; lia. }
    rewrite (generateId_same_ms k w now (repeat now j ++ tail) Hclock)
      by (rewrite ?Hmod; lia).
    rewrite Hmod, Hlast. f_equal.
    rewrite (IH (S a) n tail)
      by (cbn [clock lastTimestamp sequence]; try reflexivity; lia).
    replace (S a + j)%nat with (a + S j)%nat by lia. reflexivity.
Qed.



End IdGeneratorFacts.

(** ** More on the codec *)

Module Base62More.
Import Base62 Base62Facts.

Lemma encode_loop_alphabet (n : Z) :
  0 <= n ->
  forall result,
    Forall isBase62 result -> Forall isBase62 (encode_loop n result).
Proof.
  intros Hn. generalize Hn. pattern n. apply Z_lt_induction; [| exact Hn].
  clear n Hn. intros n IH Hn result Hres.
  destruct (Z.eq_dec n 0) as [-> | Hne].
  - rewrite encode_loop_stop by lia. exact Hres.
  - rewrite encode_loop_step by lia.
    pose proof (Z.mod_pos_bound n 62 ltac:(lia)) as Hr.
    destruct (charAt_indexOf (n mod 62) Hr) as [c [Hc Hi]].
    rewrite Hc. cbn [prepend].
    assert (Hq : 0 <= n / 62 < n).
    { split; [apply Z.div_pos; lia | apply Z.div_lt; lia]. }
    apply (IH (n / 62) Hq); [lia |].
    constructor; [| exact Hres].
    apply isBase62_indexOf. rewrite Hi. lia.
Qed.

(** X1. Whatever the number, [encodeBase62] writes characters of the
    alphabet only: a short code needs no escaping in a URL. *)
Theorem encodeBase62_alphabet (num : Z) : Forall isBase62 (encodeBase62 num).
Proof.
  destruct (Z_lt_dec num 0) as [Hneg | Hpos].
  - rewrite encodeBase62_negative by exact Hneg. constructor.
  - unfold encodeBase62. destruct (num =? 0).
    + cbn. constructor; [| constructor].
      apply isBase62_indexOf. vm_compute. discriminate.
    + apply encode_loop_alphabet; [lia | constructor].
Qed.

Lemma encode_loop_length (n : Z) :
  0 < n ->
  62 ^ (Z.of_nat (List.length (encode_loop n [])) - 1) <= n
  < 62 ^ Z.of_nat (List.length (encode_loop n [])).
Proof.
  intros Hn. assert (H0 : 0 <= n) by lia. generalize Hn. pattern n.
  apply Z_lt_induction; [| exact H0].
  clear n Hn H0. intros n IH Hn.
  rewrite encode_loop_step by lia.
  pose proof (Z.mod_pos_bound n 62 ltac:(lia)) as Hr.
  destruct (charAt_indexOf (n mod 62) Hr) as [c [Hc _]].
  rewrite Hc. cbn [prepend].
  assert (Hq : 0 <= n / 62 < n).
  { split; [apply Z.div_pos; lia | apply Z.div_lt; lia]. }
  rewrite encode_loop_app by lia. rewrite length_app. cbn [List.length].
  pose proof (Z.div_mod n 62 ltac:(lia)) as Hdm.
  destruct (Z.eq_dec (n / 62) 0) as [Hz | Hnz].
  - rewrite Hz, encode_loop_stop by lia. cbn. lia.
  - specialize (IH (n / 62) Hq ltac:(lia)).
    set (L := List.length (encode_loop (n / 62) [])) in *.
    assert (HL : (0 < L)%nat).
    { destruct L; [| lia]. cbn in IH. lia. }
    replace (Z.of_nat (L + 1) - 1) with (Z.succ (Z.of_nat L - 1)) by lia.
    replace (Z.of_nat (L + 1)) with (Z.succ (Z.of_nat L)) by lia.
    rewrite !Z.pow_succ_r by lia. lia.
Qed.

(** X2. The code of a positive number has as many characters as the number
    has digits in base 62: [62^(L-1) <= num < 62^L] for a code of [L]
    characters.  A number below 2^64 therefore gets at most 11 characters. *)
Theorem encodeBase62_length (num : Z) :
  0 < num ->
  62 ^ (Z.of_nat (List.length (encodeBase62 num)) - 1) <= num
  < 62 ^ Z.of_nat (List.length (encodeBase62 num)) /\
  (num < 2 ^ 64 -> (List.length (encodeBase62 num) <= 11)%nat).
Proof.
  intros Hn. unfold encodeBase62. destruct (num =? 0) eqn:E; [lia |].
  pose proof (encode_loop_length num Hn) as H. split; [exact H |].
  intros H64.
  destruct (le_lt_dec (List.length (encode_loop num [])) 11) as [Hle | Hgt];
    [exact Hle | exfalso].
  assert (62 ^ 11 <= 62 ^ (Z.of_nat (List.length (encode_loop num [])) - 1))
    by (apply Z.pow_le_mono_r; lia).
  assert (2 ^ 64 < 62 ^ 11) by reflexivity. lia.
Qed.

Lemma encodeBase62_length_witness :
  62 ^ (Z.of_nat (List.length (encodeBase62 (2 ^ 64 - 1))) - 1) <= 2 ^ 64 - 1
  < 62 ^ Z.of_nat (List.length (encodeBase62 (2 ^ 64 - 1))) /\
  (2 ^ 64 - 1 < 2 ^ 64 -> (List.length (encodeBase62 (2 ^ 64 - 1)) <= 11)%nat).
Proof.
  apply (encodeBase62_length (2 ^ 64 - 1)). reflexivity.
Defined.

Lemma decode_loop_acc (str : jsstring) :
  forall num,
    decode_loop str num =
    match decode_loop str 0 with
    | Normal n => Normal (num * 62 ^ Z.of_nat (List.length str) + n)
    | Throw e => Throw e
    end.
Proof.
  induction str as [| c str IH]; intros num; cbn [decode_loop List.length].
  - f_equal. cbn. lia.
  - destruct (indexOf BASE62_CHARS c =? -1); [reflexivity |].
    rewrite (IH (num * BASE + indexOf BASE62_CHARS c)).
    rewrite (IH (0 * BASE + indexOf BASE62_CHARS c)).
    destruct (decode_loop str 0) as [n | e]; [| reflexivity].
    f_equal. unfold BASE. rewrite Nat2Z.inj_succ, Z.pow_succ_r by lia. lia.
Qed.

Lemma decode_loop_app (s t : jsstring) :
  forall num,
    decode_loop (s ++ t) num =
    match decode_loop s num with
    | Normal a => decode_loop t a
    | Throw e => Throw e
    end.
Proof.
  induction s as [| c s IH]; intros num; cbn [app decode_loop];
    [reflexivity |].
  destruct (indexOf BASE62_CHARS c =? -1); [reflexivity | apply IH].
Qed.

(** X3. Decoding is positional: the value of a concatenation is the value of
    the first part shifted by the length of the second, plus the value of
    the second; and it is rejected with the error of the first part that is
    rejected. *)
Theorem decodeBase62_app (s t : jsstring) :
  decodeBase62 (s ++ t) =
  match decodeBase62 s, decodeBase62 t with
  | Normal a, Normal b => Normal (a * 62 ^ Z.of_nat (List.length t) + b)
  | Normal _, Throw e => Throw e
  | Throw e, _ => Throw e
  end.
Proof.
  unfold decodeBase62. rewrite decode_loop_app.
  destruct (decode_loop s 0) as [a | e]; [| reflexivity].
  rewrite decode_loop_acc. destruct (decode_loop t 0); reflexivity.
Qed.

(** X4. What [decodeBase62] returns is never negative and is below 62 to the
    length of the string: a code of at most 10 characters decodes below
    2^63. *)
Theorem decodeBase62_bound (str : jsstring) (n : Z) :
  decodeBase62 str = Normal n ->
  0 <= n < 62 ^ Z.of_nat (List.length str) /\
  ((List.length str <= 10)%nat -> n < 2 ^ 63).
Proof.
  unfold decodeBase62.
  assert (Hb : forall s v, decode_loop s 0 = Normal v ->
                           0 <= v < 62 ^ Z.of_nat (List.length s)).
  { induction s as [| c s IH] using rev_ind; intros v H.
    - injection H as <-. cbn. lia.
    - rewrite decode_loop_app in H.
      destruct (decode_loop s 0) as [a |] eqn:Ha; [| discriminate].
      specialize (IH a eq_refl). cbn [decode_loop] in H.
      destruct (indexOf_cases BASE62_CHARS c) as [[_ Hi] | [_ [Hi _]]].
      + rewrite Hi in H. discriminate.
      + destruct (indexOf BASE62_CHARS c =? -1); [discriminate |].
        injection H as <-. change (Z.of_nat (List.length BASE62_CHARS)) with 62 in Hi.
        rewrite length_app. cbn [List.length].
        replace (Z.of_nat (List.length s + 1)) with (Z.succ (Z.of_nat (List.length s)))
          by lia.
        rewrite Z.pow_succ_r by lia. unfold BASE. lia. }
  intros H. specialize (Hb str n H). split; [exact Hb |].
  intros Hlen.
  assert (62 ^ Z.of_nat (List.length str) <= 62 ^ 10)
    by (apply Z.pow_le_mono_r; lia).
  assert (62 ^ 10 < 2 ^ 63) by reflexivity. lia.
Qed.

Lemma decodeBase62_bound_witness :
  0 <= 1000 < 62 ^ Z.of_nat (List.length (js "g8")) /\
  ((List.length (js "g8") <= 10)%nat -> 1000 < 2 ^ 63).
Proof.
  apply (decodeBase62_bound (js "g8") 1000). reflexivity.
Defined.

End Base62More.

(** ** More on the generator *)

Module IdGeneratorMore.
Import IdGenerator IdGeneratorFacts.

(** X5. Whatever BigInt it is given, negative or beyond 64 bits, [parseId]
    returns a timestamp below 2^41, a machine identifier of at most 1023
    and a sequence of at most 4095, none of them negative. *)
Theorem parseId_ranges (id : Z) :
  0 <= Parsed.timestamp (parseId id) < 2 ^ 41 /\
  0 <= Parsed.machineId (parseId id) <= 1023 /\
  0 <= Parsed.sequence (parseId id) <= 4095 /\
  Parsed.date (parseId id) = Parsed.timestamp (parseId id) + EPOCH.
Proof.
  unfold parseId. cbn [Parsed.timestamp Parsed.machineId Parsed.sequence Parsed.date].
  change 2199023255551 with (Z.ones 41).
  change MAX_MACHINE_ID with (Z.ones 10).
  change MAX_SEQUENCE with (Z.ones 12).
  rewrite !Z.land_ones by (unfold MACHINE_ID_BITS, SEQUENCE_BITS; lia).
  pose proof (Z.mod_pos_bound (Z.shiftr id (MACHINE_ID_BITS + SEQUENCE_BITS))
                (2 ^ 41) ltac:(lia)).
  pose proof (Z.mod_pos_bound (Z.shiftr id SEQUENCE_BITS) (2 ^ 10) ltac:(lia)).
  pose proof (Z.mod_pos_bound id (2 ^ 12) ltac:(lia)).
  repeat split; lia.
Qed.

(** The fields of any identifier, by division. *)
Lemma parseId_div (id : Z) :
  parseId id =
  {| Parsed.timestamp := (id / 2 ^ 22) mod 2 ^ 41;
     Parsed.machineId := (id / 2 ^ 12) mod 2 ^ 10;
     Parsed.sequence := id mod 2 ^ 12;
     Parsed.date := (id / 2 ^ 22) mod 2 ^ 41 + EPOCH |}.
Proof.
  unfold parseId, MACHINE_ID_BITS, SEQUENCE_BITS.
  change (10 + 12) with 22.
  change 2199023255551 with (Z.ones 41).
  change MAX_MACHINE_ID with (Z.ones 10).
  change MAX_SEQUENCE with (Z.ones 12).
  rewrite !Z.land_ones, !Z.shiftr_div_pow2 by lia. reflexivity.
Qed.

(** X6. An identifier of 63 bits is the composition of the three fields
    [parseId] reads from it: nothing of it is lost. *)
Theorem composeId_parseId (id : Z) :
  0 <= id < 2 ^ 63 ->
  composeId (Parsed.timestamp (parseId id)) (Parsed.machineId (parseId id))
            (Parsed.sequence (parseId id)) = id.
Proof.
  intros Hid. rewrite parseId_div.
  cbn [Parsed.timestamp Parsed.machineId Parsed.sequence].
  pose proof (Z.mod_pos_bound (id / 2 ^ 12) (2 ^ 10) ltac:(lia)).
  pose proof (Z.mod_pos_bound id (2 ^ 12) ltac:(lia)).
  rewrite composeId_sum by lia.
  assert (Hhi : 0 <= id / 2 ^ 22 < 2 ^ 41).
  { split; [apply Z.div_pos; lia |].
    apply Z.div_lt_upper_bound; lia. }
  rewrite (Z.mod_small (id / 2 ^ 22)) by exact Hhi.
  pose proof (Z.div_mod id (2 ^ 12) ltac:(lia)) as H12.
  pose proof (Z.div_mod (id / 2 ^ 12) (2 ^ 10) ltac:(lia)) as H10.
  rewrite Z.div_div in H10 by lia.
  change (2 ^ 12 * 2 ^ 10) with (2 ^ 22) in H10.
  lia.
Qed.

Lemma composeId_parseId_witness :
  composeId (Parsed.timestamp (parseId 29380609))
            (Parsed.machineId (parseId 29380609))
            (Parsed.sequence (parseId 29380609)) = 29380609.
Proof.
  apply (composeId_parseId 29380609). split; [discriminate | reflexivity].
Defined.

(** The fields of a composed identifier, for any timestamp. *)
Lemma parseId_sum_any (t m s : Z) :
  0 <= m <= 1023 -> 0 <= s <= 4095 ->
  parseId (t * 4194304 + m * 4096 + s) =
  {| Parsed.timestamp := t mod 2 ^ 41; Parsed.machineId := m;
     Parsed.sequence := s; Parsed.date := t mod 2 ^ 41 + EPOCH |}.
Proof.
  intros Hm Hs. rewrite parseId_div.
  set (id := t * 4194304 + m * 4096 + s).
  assert (H22 : id / 2 ^ 22 = t).
  { symmetry. apply (Z.div_unique id (2 ^ 22) t (m * 4096 + s)); subst id; lia. }
  assert (H12 : id / 2 ^ 12 = t * 1024 + m).
  { symmetry. apply (Z.div_unique id (2 ^ 12) (t * 1024 + m) s); subst id; lia. }
  assert (Hs12 : id mod 2 ^ 12 = s).
  { symmetry. apply (Z.mod_unique id (2 ^ 12) (t * 1024 + m) s); subst id; lia. }
  assert (Hm10 : (t * 1024 + m) mod 2 ^ 10 = m).
  { symmetry. apply (Z.mod_unique _ (2 ^ 10) t m); lia. }
  rewrite H22, H12, Hs12, Hm10. reflexivity.
Qed.

(** X7. The identifier of a successful call carries the state the call
    leaves: [parseId] reads from it the node identifier and the sequence,
    and the timestamp modulo 2^41 (the timestamp itself until 2^41
    milliseconds after the epoch, a wrapped one afterwards). *)
Theorem generateId_parseId
    (env : Env) (k : Z) (w w' : World) (id : Z) :
  getMachineId env = Normal (Int k) ->
  generateId (Int k) w = Some (Normal id, w') ->
  parseId id =
  {| Parsed.timestamp := lastTimestamp w' mod 2 ^ 41;
     Parsed.machineId := k;
     Parsed.sequence := sequence w';
     Parsed.date := lastTimestamp w' mod 2 ^ 41 + EPOCH |}.
Proof.
  intros Henv Hcall. pose proof (getMachineId_range env k Henv) as Hk.
  destruct (generateId_Normal _ _ _ _ Hcall) as [k' [[= <-] [-> [Hseq _]]]].
  rewrite composeId_sum by lia. apply parseId_sum_any; lia.
Qed.

Lemma generateId_parseId_witness :
  parseId 29380608 =
  {| Parsed.timestamp := 7 mod 2 ^ 41; Parsed.machineId := 5;
     Parsed.sequence := 0; Parsed.date := 7 mod 2 ^ 41 + EPOCH |}.
Proof.
  apply (generateId_parseId
           {| MACHINE_ID := Some (js "5"); hostname := [] |} 5
           (init [EPOCH + 7])
           {| sequence := 0; lastTimestamp := 7; clock := [] |} 29380608);
    reflexivity.
Defined.

(** X8. An identifier minted at or after the epoch is not negative, and it
    fits the signed 64-bit column it is stored in exactly as long as its
    timestamp is below 2^41 (some 69 years after the epoch). *)
Theorem generateId_bigint
    (env : Env) (k : Z) (w w' : World) (id : Z) :
  getMachineId env = Normal (Int k) ->
  generateId (Int k) w = Some (Normal id, w') ->
  0 <= lastTimestamp w' ->
  0 <= id /\ (id < 2 ^ 63 <-> lastTimestamp w' < 2 ^ 41).
Proof.
  intros Henv Hcall Ht. pose proof (getMachineId_range env k Henv) as Hk.
  destruct (generateId_Normal _ _ _ _ Hcall) as [k' [[= <-] [-> [Hseq _]]]].
  rewrite composeId_sum by lia. lia.
Qed.

Lemma generateId_bigint_witness :
  0 <= 29380608 /\ (29380608 < 2 ^ 63 <-> 7 < 2 ^ 41).
Proof.
  apply (generateId_bigint
           {| MACHINE_ID := Some (js "5"); hostname := [] |} 5
           (init [EPOCH + 7])
           {| sequence := 0; lastTimestamp := 7; clock := [] |} 29380608);
    try reflexivity.
  discriminate.
Defined.

(** The readings the busy wait consumes. *)
Lemma poll_used (last : Z) (readings : list Z) (t : Z) (rest : list Z) :
  poll last readings = Some (t, rest) ->
  exists used,
    readings = used ++ rest /\ used <> [] /\ In (t + EPOCH) used /\ last < t.
Proof.
  induction readings as [| r readings IH]; cbn [poll]; [discriminate |].
  destruct (Z.leb_spec (r - EPOCH) last) as [Hle | Hgt].
  - intros H. destruct (IH H) as [used [-> [_ [Hin Hlt]]]].
    exists (r :: used). repeat split; try discriminate; [right; exact Hin | exact Hlt].
  - intros [= <- <-]. exists [r].
    repeat split; try discriminate; [left; lia | lia].
Qed.

(** What any completed call does to the state: it reads at least one
    reading; either it threw and wrote nothing, or it wrote a timestamp it
    read, not earlier than the one before, and a sequence in range. *)
Lemma generateId_step (machineId : number) (w w' : World) (c : completion Z) :
  generateId machineId w = Some (c, w') ->
  exists used,
    clock w = used ++ clock w' /\ used <> [] /\
    ((lastTimestamp w' = lastTimestamp w /\ sequence w' = sequence w /\
      exists e, c = Throw e) \/
     (In (lastTimestamp w' + EPOCH) used /\
      lastTimestamp w <= lastTimestamp w' /\ 0 <= sequence w' <= 4095)).
Proof.
  rewrite generateId_eq.
  destruct (clock w) as [| now rest]; [discriminate |]. cbn zeta.
  assert (Hfinish : forall t s rest',
             In (t + EPOCH) (now :: firstn (List.length rest - List.length rest') rest) ->
             rest = firstn (List.length rest - List.length rest') rest ++ rest' ->
             lastTimestamp w <= t -> 0 <= s <= 4095 ->
             finish machineId t s rest' = Some (c, w') ->
             exists used,
               now :: rest = used ++ clock w' /\ used <> [] /\
               ((lastTimestamp w' = lastTimestamp w /\ sequence w' = sequence w /\
                 exists e, c = Throw e) \/
                (In (lastTimestamp w' + EPOCH) used /\
                 lastTimestamp w <= lastTimestamp w' /\ 0 <= sequence w' <= 4095))).
  { intros t s rest' Hin Happ Ht Hs Hf.
    exists (now :: firstn (List.length rest - List.length rest') rest).
    unfold finish in Hf.
    destruct machineId; injection Hf as <- <-; cbn [clock lastTimestamp sequence];
      (split; [cbn [app]; f_equal; exact Happ |]);
      (split; [discriminate |]); right; repeat split; assumption || lia. }
  assert (Hself : forall rest0 : list Z,
             rest0 = firstn (List.length rest0 - List.length rest0) rest0 ++ rest0).
  { intros rest0. rewrite Nat.sub_diag. reflexivity. }
  destruct (Z.ltb_spec (now - EPOCH) (lastTimestamp w)) as [Hlt | Hge].
  - intros [= <- <-]. exists [now]. cbn [clock lastTimestamp sequence].
    split; [reflexivity |]. split; [discriminate |].
    left. repeat split. eexists. reflexivity.
  - destruct (Z.eqb_spec (now - EPOCH) (lastTimestamp w)) as [Heq | Hne].
    + rewrite land_MAX_SEQUENCE.
      pose proof (Z.mod_pos_bound (sequence w + 1) 4096 ltac:(lia)) as Hmod.
      destruct (Z.eqb_spec ((sequence w + 1) mod 4096) 0) as [Hz | Hnz].
      * destruct (poll (lastTimestamp w) rest) as [[t rest'] |] eqn:Hp;
          [| discriminate].
        destruct (poll_used _ _ _ _ Hp) as [used [Hrest [_ [Hin Hlater]]]].
        assert (Hfirst : firstn (List.length rest - List.length rest') rest = used).
        { rewrite Hrest, length_app.
          replace (List.length used + List.length rest' - List.length rest')%nat
            with (List.length used + 0)%nat by lia.
          rewrite firstn_app_2. cbn [firstn]. apply app_nil_r. }
        apply Hfinish; try lia.
        -- rewrite Hfirst. right. exact Hin.
        -- rewrite Hfirst. exact Hrest.
      * apply Hfinish; try lia.
        -- left. lia.
        -- apply Hself.
    + apply Hfinish; try lia.
      * left. lia.
      * apply Hself.
Qed.

(** X9. Over any number of calls, failed ones included, [lastTimestamp]
    never decreases, a [sequence] within 0..4095 stays within it, and every
    call consumes at least one reading of the clock. *)
Theorem after_invariant (machineId : number) (n : nat) (w w' : World) :
  IdGeneratorRuns.after machineId n w = Some w' ->
  lastTimestamp w <= lastTimestamp w' /\
  (0 <= sequence w <= 4095 -> 0 <= sequence w' <= 4095) /\
  exists used,
    clock w = used ++ clock w' /\ (n <= List.length used)%nat.
Proof.
  revert w. induction n as [| n IH]; intros w; cbn [IdGeneratorRuns.after].
  - intros [= <-]. split; [lia |]. split; [tauto |].
    exists []. split; [reflexivity | cbn; lia].
  - destruct (generateId machineId w) as [[c w1] |] eqn:Hcall; [| discriminate].
    intros Hafter. destruct (IH w1 Hafter) as [Hmono [Hseq [used1 [Hclock Hlen]]]].
    destruct (generateId_step _ _ _ _ Hcall) as [used [Hused [Hne Hcases]]].
    assert (Hlen0 : (1 <= List.length used)%nat).
    { destruct used; [contradiction | cbn; lia]. }
    split; [| split].
    + destruct Hcases as [[Hl _] | [_ [Hl _]]]; lia.
    + intros Hrange. apply Hseq.
      destruct Hcases as [[_ [Hs _]] | [_ [_ Hs]]]; lia.
    + exists (used ++ used1). rewrite <- app_assoc, <- Hclock.
      split; [exact Hused |]. rewrite length_app. lia.
Qed.

Lemma after_invariant_witness :
  lastTimestamp (init [EPOCH + 7; EPOCH + 6; EPOCH + 8]) <= 8 /\
  (0 <= sequence (init [EPOCH + 7; EPOCH + 6; EPOCH + 8]) <= 4095 ->
   0 <= 0 <= 4095) /\
  exists used,
    clock (init [EPOCH + 7; EPOCH + 6; EPOCH + 8]) = used ++ [] /\
    (3 <= List.length used)%nat.
Proof.
  apply (after_invariant (Int 5) 3 (init [EPOCH + 7; EPOCH + 6; EPOCH + 8])
           {| sequence := 0; lastTimestamp := 8; clock := [] |}).
  reflexivity.
Defined.

(** The identifiers of a run are increasing, and each is composed of the
    node identifier, a sequence in range and a timestamp that was read. *)
Lemma run_sorted (k : Z) (n : nat) :
  0 <= k <= 1023 ->
  forall w, StronglySorted Z.lt (successes (run (Int k) n w)).
Proof.
  intros Hk. induction n as [| n IH]; intros w; cbn [run].
  - constructor.
  - destruct (generateId (Int k) w) as [[[id | e] w'] |] eqn:Hcall;
      cbn [successes].
    + destruct (generateId_Normal _ _ _ _ Hcall) as [k' [[= <-] [Hid [Hseq _]]]].
      destruct (run_above k n Hk w' Hseq) as [Habove _].
      rewrite <- Hid in Habove. constructor; [apply IH | exact Habove].
    + apply IH.
    + constructor.
Qed.

Lemma run_form (k : Z) (n : nat) :
  0 <= k <= 1023 ->
  forall w,
    Forall (fun id => exists t s,
                In (t + EPOCH) (clock w) /\ 0 <= s <= 4095 /\
                id = t * 4194304 + k * 4096 + s)
           (successes (run (Int k) n w)).
Proof.
  intros Hk. induction n as [| n IH]; intros w; cbn [run].
  - constructor.
  - destruct (generateId (Int k) w) as [[c w'] |] eqn:Hcall; [| constructor].
    destruct (generateId_step _ _ _ _ Hcall) as [used [Hclock [_ Hcases]]].
    assert (Hrest : Forall (fun id => exists t s,
                              In (t + EPOCH) (clock w) /\ 0 <= s <= 4095 /\
                              id = t * 4194304 + k * 4096 + s)
                           (successes (run (Int k) n w'))).
    { eapply Forall_impl; [| apply IH].
      intros id [t [s [Hin H]]]. exists t, s. split; [| exact H].
      rewrite Hclock. apply in_or_app. right. exact Hin. }
    destruct c as [id | e]; cbn [successes]; [| exact Hrest].
    constructor; [| exact Hrest].
    destruct (generateId_Normal _ _ _ _ Hcall) as [k' [[= <-] [Hid [Hseq _]]]].
    destruct Hcases as [[_ [_ [e He]]] | [Hin _]]; [discriminate |].
    exists (lastTimestamp w'), (sequence w').
    split; [rewrite Hclock; apply in_or_app; left; exact Hin |].
    split; [exact Hseq |]. rewrite Hid. apply composeId_sum; lia.
Qed.

(** With [NaN] for a node identifier no call succeeds. *)
Lemma run_NaN (n : nat) : forall w, successes (run NaN n w) = [].
Proof.
  induction n as [| n IH]; intros w; cbn [run]; [reflexivity |].
  destruct (generateId NaN w) as [[[id | e] w'] |] eqn:Hcall;
    cbn [successes]; try reflexivity; [| apply IH].
  destruct (generateId_Normal _ _ _ _ Hcall) as [k [[=] _]].
Qed.

(** X10. However many calls are made and however the clock moves, at most
    4096 of the identifiers minted by one generator were composed with the
    same timestamp, the value of [id >> 22n].  As long as the clock reads
    times from the epoch to less than 2^41 milliseconds after it, so that
    the timestamps fit their 41 bits, at most 4096 of them give [parseId]
    the same timestamp. *)
Theorem run_capacity
    (env : Env) (machineId : number) (n : nat) (w : World) (t : Z) :
  getMachineId env = Normal machineId ->
  (List.length (IdGeneratorRuns.mintedAt t (successes (run machineId n w)))
   <= 4096)%nat /\
  (Forall (fun now => EPOCH <= now < EPOCH + 2 ^ 41) (clock w) ->
   (List.length (IdGeneratorRuns.parsedAt t (successes (run machineId n w)))
    <= 4096)%nat).
Proof.
  intros Henv.
  assert (Hminted :
            (List.length (IdGeneratorRuns.mintedAt t (successes (run machineId n w)))
             <= 4096)%nat).
  { destruct machineId as [| k].
    - rewrite run_NaN. cbn. lia.
    - pose proof (getMachineId_range env k Henv) as Hk.
      set (ids := IdGeneratorRuns.mintedAt t (successes (run (Int k) n w))).
      set (f := fun id => Z.to_nat (id - t * 4194304 - k * 4096)).
      assert (Hform : forall id, In id ids ->
                        exists s, 0 <= s <= 4095 /\ id = t * 4194304 + k * 4096 + s).
      { intros id Hin. apply filter_In in Hin. destruct Hin as [Hin Ht].
        pose proof (run_form k n Hk w) as Hall. rewrite Forall_forall in Hall.
        destruct (Hall id Hin) as [t' [s [_ [Hs Hid]]]].
        exists s. split; [exact Hs |].
        apply Z.eqb_eq in Ht. unfold MACHINE_ID_BITS, SEQUENCE_BITS in Ht.
        change (10 + 12) with 22 in Ht. rewrite Z.shiftr_div_pow2 in Ht by lia.
        assert (Hdiv : id / 2 ^ 22 = t').
        { symmetry. apply (Z.div_unique id (2 ^ 22) t' (k * 4096 + s)); lia. }
        rewrite Hdiv in Ht. subst t'. exact Hid. }
      assert (Hnodup : NoDup ids).
      { apply NoDup_filter. apply StronglySorted_lt_NoDup. apply run_sorted. exact Hk. }
      assert (Hmap : NoDup (map f ids)).
      { clear - Hform Hnodup. induction Hnodup as [| id l Hnot _ IH]; cbn [map];
          constructor.
        - intros Hin. apply in_map_iff in Hin. destruct Hin as [id' [Heq Hin']].
          destruct (Hform id (or_introl eq_refl)) as [s [Hs ->]].
          destruct (Hform id' (or_intror Hin')) as [s' [Hs' ->]].
          unfold f in Heq. apply Hnot.
          replace s with s' by lia. exact Hin'.
        - apply IH. intros id' Hin'. apply Hform. right. exact Hin'. }
      assert (Hincl : incl (map f ids) (seq 0 4096)).
      { intros x Hx. apply in_map_iff in Hx. destruct Hx as [id [<- Hin]].
        destruct (Hform id Hin) as [s [Hs ->]]. unfold f. apply in_seq. lia. }
      pose proof (NoDup_incl_length Hmap Hincl) as Hlen.
      rewrite length_map, length_seq in Hlen. exact Hlen. }
  split; [exact Hminted |].
  intros Hclock.
  replace (IdGeneratorRuns.parsedAt t (successes (run machineId n w)))
    with (IdGeneratorRuns.mintedAt t (successes (run machineId n w)));
    [exact Hminted |].
  destruct machineId as [| k]; [rewrite run_NaN; reflexivity |].
  pose proof (getMachineId_range env k Henv) as Hk.
  unfold IdGeneratorRuns.mintedAt, IdGeneratorRuns.parsedAt.
  apply filter_ext_in. intros id Hin.
  pose proof (run_form k n Hk w) as Hall. rewrite Forall_forall in Hall.
  destruct (Hall id Hin) as [t' [s [Hread [Hs Hid]]]].
  rewrite Forall_forall in Hclock. specialize (Hclock _ Hread).
  f_equal. unfold parseId. cbn [Parsed.timestamp].
  unfold MACHINE_ID_BITS, SEQUENCE_BITS. change (10 + 12) with 22.
  rewrite Z.shiftr_div_pow2 by lia.
  assert (Hdiv : id / 2 ^ 22 = t').
  { symmetry. apply (Z.div_unique id (2 ^ 22) t' (k * 4096 + s)); lia. }
  rewrite Hdiv. change 2199023255551 with (Z.ones 41).
  rewrite Z.land_ones by lia. symmetry. apply Z.mod_small. lia.
Qed.

Lemma run_capacity_witness :
  (List.length
     (IdGeneratorRuns.mintedAt 7
        (successes (run (Int 5) 4
                      (init [EPOCH + 7; EPOCH + 7; EPOCH + 6; EPOCH + 8]%Z))))
   <= 4096)%nat /\
  (Forall (fun now => EPOCH <= now < EPOCH + 2 ^ 41)
     (clock (init [EPOCH + 7; EPOCH + 7; EPOCH + 6; EPOCH + 8])) ->
   (List.length
      (IdGeneratorRuns.parsedAt 7
         (successes (run (Int 5) 4
                       (init [EPOCH + 7; EPOCH + 7; EPOCH + 6; EPOCH + 8]%Z))))
    <= 4096)%nat).
Proof.
  apply (run_capacity {| MACHINE_ID := Some (js "5"); hostname := [] |}).
  reflexivity.
Defined.

(** X11. Across a millisecond boundary the sequence starts again: [a] calls
    in one millisecond and [b] calls in a later one, neither more than 4096,
    return the sequences 0, ..., a-1 at the first timestamp and then
    0, ..., b-1 at the second. *)
Theorem run_millisecond_boundary
    (k : Z) (w : World) (now now' : Z) (a b : nat) (rest : list Z) :
  0 <= k <= 1023 ->
  clock w = repeat now a ++ repeat now' b ++ rest ->
  lastTimestamp w < now - EPOCH ->
  now < now' ->
  (1 <= a <= 4096)%nat ->
  (1 <= b <= 4096)%nat ->
  run (Int k) (a + b) w =
  map (fun i => Normal (composeId (now - EPOCH) k (Z.of_nat i))) (seq 0 a) ++
  map (fun i => Normal (composeId (now' - EPOCH) k (Z.of_nat i))) (seq 0 b).
Proof.
  intros Hk Hclock Hnew Hlater Ha Hb.
  destruct a as [| a]; [lia |]. destruct b as [| b]; [lia |].
  cbn [repeat app] in Hclock.
  cbn [Nat.add run seq map app].
  rewrite (generateId_new_ms k w now _ Hclock Hnew). f_equal.
  rewrite (run_same_ms k now a 0 (S b) (repeat now' (S b) ++ rest))
    by (cbn [clock lastTimestamp sequence repeat app]; try reflexivity; lia).
  f_equal. cbn [run repeat app Nat.add seq map].
  rewrite (generateId_new_ms k _ now' (repeat now' b ++ rest))
    by (cbn [clock lastTimestamp]; try reflexivity; lia).
  f_equal.
  replace b with (b + 0)%nat at 1 by lia.
  rewrite (run_same_ms k now' b 0 0 rest)
    by (cbn [clock lastTimestamp sequence]; try reflexivity; lia).
  cbn [run]. apply app_nil_r.
Qed.

Lemma run_millisecond_boundary_witness :
  run (Int 5) (2 + 3)
    (init (repeat (EPOCH + 7) 2 ++ repeat (EPOCH + 9) 3 ++ [])) =
  map (fun i => Normal (composeId (EPOCH + 7 - EPOCH) 5 (Z.of_nat i))) (seq 0 2) ++
  map (fun i => Normal (composeId (EPOCH + 9 - EPOCH) 5 (Z.of_nat i))) (seq 0 3).
Proof.
  apply (run_millisecond_boundary 5
           (init (repeat (EPOCH + 7) 2 ++ repeat (EPOCH + 9) 3 ++ []))
           (EPOCH + 7) (EPOCH + 9) 2 3 []);
    try reflexivity; lia.
Defined.

Lemma NoDup_map_on {A B : Type} (f : A -> B) (l : list A) :
  (forall x y, In x l -> In y l -> f x = f y -> x = y) ->
  NoDup l -> NoDup (map f l).
Proof.
  intros Hinj Hnd. induction Hnd as [| x l Hnot _ IH]; cbn [map]; constructor.
  - intros Hin. apply in_map_iff in Hin. destruct Hin as [y [Heq Hy]].
    apply Hnot. rewrite (Hinj x y); auto using in_eq, in_cons.
  - apply IH. intros a b Ha Hb. apply Hinj; auto using in_cons.
Qed.

(** X12. With a clock that reads no time before the epoch, the short codes
    of the identifiers one generator mints are pairwise distinct, however
    many calls failed in between. *)
Theorem shortCodes_unique
    (env : Env) (machineId : number) (n : nat) (w : World) :
  getMachineId env = Normal machineId ->
  Forall (fun r => EPOCH <= r) (clock w) ->
  NoDup (map Base62.encodeBase62 (successes (run machineId n w))).
Proof.
  intros Henv Hclock. destruct machineId as [| k].
  - rewrite run_NaN. constructor.
  - pose proof (getMachineId_range env k Henv) as Hk.
    assert (Hpos : forall id, In id (successes (run (Int k) n w)) -> 0 <= id).
    { intros id Hin. pose proof (run_form k n Hk w) as Hall.
      rewrite Forall_forall in Hall, Hclock.
      destruct (Hall id Hin) as [t [s [Ht [Hs ->]]]].
      specialize (Hclock _ Ht). lia. }
    apply NoDup_map_on.
    + intros a b Ha Hb Heq.
      pose proof (Base62Facts.decode_encode a (Hpos a Ha)) as Hda.
      rewrite Heq, (Base62Facts.decode_encode b (Hpos b Hb)) in Hda.
      congruence.
    + apply StronglySorted_lt_NoDup. apply run_sorted. exact Hk.
Qed.

Lemma shortCodes_unique_witness :
  NoDup (map Base62.encodeBase62
           (successes (run (Int 5) 4
                         (init [EPOCH + 7; EPOCH + 7; EPOCH + 6; EPOCH + 8])))).
Proof.
  apply (shortCodes_unique {| MACHINE_ID := Some (js "5"); hostname := [] |}).
  - reflexivity.
  - repeat constructor; discriminate.
Defined.

(** X13. A call that mints at a timestamp before the epoch returns a
    negative identifier, and the short code of a negative identifier is the
    empty string. *)
Theorem generateId_before_epoch
    (env : Env) (k : Z) (w w' : World) (id : Z) :
  getMachineId env = Normal (Int k) ->
  generateId (Int k) w = Some (Normal id, w') ->
  lastTimestamp w' < 0 ->
  id < 0 /\ Base62.encodeBase62 id = [].
Proof.
  intros Henv Hcall Ht. pose proof (getMachineId_range env k Henv) as Hk.
  destruct (generateId_Normal _ _ _ _ Hcall) as [k' [[= <-] [-> [Hseq _]]]].
  assert (Hneg : composeId (lastTimestamp w') k (sequence w') < 0)
    by (rewrite composeId_sum by lia; lia).
  split; [exact Hneg | apply Base62Facts.encodeBase62_negative; exact Hneg].
Qed.

Lemma generateId_before_epoch_witness :
  -4173823 < 0 /\ Base62.encodeBase62 (-4173823) = [].
Proof.
  apply (generateId_before_epoch
           {| MACHINE_ID := Some (js "5"); hostname := [] |} 5
           (init [EPOCH - 1])
           {| sequence := 1; lastTimestamp := -1; clock := [] |} (-4173823));
    reflexivity.
Defined.

(** X14. Without a configured value the node identifier is computed from
    the hostname alone, never fails and lies within 0..1023, whatever the
    hostname. *)
Theorem getMachineId_fallback (env : Env) :
  MACHINE_ID env = None ->
  exists k,
    getMachineId env = Normal (Int k) /\ 0 <= k <= 1023 /\
    k = Number_and (Z.abs (hash_loop (hostname env) 0)) MAX_MACHINE_ID.
Proof.
  intros Hnone. destruct (getMachineId_hostname env Hnone) as [k [Hk Hrange]].
  exists k. split; [exact Hk |]. split; [exact Hrange |].
  unfold getMachineId in Hk. rewrite Hnone in Hk. congruence.
Qed.

Lemma getMachineId_fallback_witness :
  exists k,
    getMachineId {| MACHINE_ID := None; hostname := js "web-1" |} =
    Normal (Int k) /\ 0 <= k <= 1023 /\
    k = Number_and (Z.abs (hash_loop (js "web-1") 0)) MAX_MACHINE_ID.
Proof.
  apply (getMachineId_fallback {| MACHINE_ID := None; hostname := js "web-1" |}).
  reflexivity.
Defined.

(** X15. A configured value takes precedence over the hostname.  When it
    reads as an integer within 0..1023 that integer is the node identifier;
    when it reads as an integer outside, [getMachineId] throws "MACHINE_ID
    must be between 0 and 1023". *)
Theorem getMachineId_explicit (env : Env) (value : jsstring) (z : Z) :
  MACHINE_ID env = Some value ->
  parseInt value = Int z ->
  (forall env', MACHINE_ID env' = Some value ->
                getMachineId env' = getMachineId env) /\
  (0 <= z <= 1023 -> getMachineId env = Normal (Int z)) /\
  (z < 0 \/ 1023 < z ->
   getMachineId env =
   Throw (Error (js "MACHINE_ID must be between 0 and 1023"))).
Proof.
  intros Hsome Hparse. split; [| split].
  - intros env' Hsome'. unfold getMachineId. rewrite Hsome, Hsome'. reflexivity.
  - intros Hz. unfold getMachineId. rewrite Hsome, Hparse.
    cbn [number_ltb]. change MAX_MACHINE_ID with 1023.
    destruct (Z.ltb_spec z 0), (Z.ltb_spec 1023 z); cbn [orb];
      try lia; reflexivity.
  - intros Hz. unfold getMachineId. rewrite Hsome, Hparse.
    cbn [number_ltb]. change MAX_MACHINE_ID with 1023.
    destruct (Z.ltb_spec z 0), (Z.ltb_spec 1023 z); cbn [orb];
      try lia; reflexivity.
Qed.

Lemma getMachineId_explicit_witness :
  (forall env', MACHINE_ID env' = Some (js "1024") ->
                getMachineId env' =
                getMachineId {| MACHINE_ID := Some (js "1024"); hostname := [] |}) /\
  (0 <= 1024 <= 1023 ->
   getMachineId {| MACHINE_ID := Some (js "1024"); hostname := [] |} =
   Normal (Int 1024)) /\
  (1024 < 0 \/ 1023 < 1024 ->
   getMachineId {| MACHINE_ID := Some (js "1024"); hostname := [] |} =
   Throw (Error (js "MACHINE_ID must be between 0 and 1023"))).
Proof.
  apply (getMachineId_explicit
           {| MACHINE_ID := Some (js "1024"); hostname := [] |} (js "1024") 1024);
    reflexivity.
Defined.

Lemma parseDigits_prefix (digits : jsstring) (c : code_unit) (rest : jsstring) :
  Forall (fun d => digitValue d <> None) digits ->
  digitValue c = None ->
  forall acc, parseDigits (digits ++ c :: rest) acc = parseDigits digits acc.
Proof.
  intros Hdigits Hc. induction Hdigits as [| d digits Hd _ IH]; intros acc;
    cbn [app parseDigits].
  - rewrite Hc. reflexivity.
  - destruct (digitValue d); [apply IH | contradiction].
Qed.

(** X16. A configured value is read as far as its digits go: whatever
    follows the leading digits, letters or a fraction, is ignored without
    any error. *)
Theorem getMachineId_trailing
    (env : Env) (digits : jsstring) (c : code_unit) (rest : jsstring) :
  MACHINE_ID env = Some (digits ++ c :: rest) ->
  digits <> [] ->
  Forall (fun d => digitValue d <> None) digits ->
  digitValue c = None ->
  getMachineId env =
  getMachineId {| MACHINE_ID := Some digits; hostname := hostname env |}.
Proof.
  intros Hsome Hne Hdigits Hc.
  assert (Hparse : parseInt (digits ++ c :: rest) = parseInt digits).
  { destruct digits as [| d digits]; [contradiction |].
    pose proof (Forall_inv Hdigits) as Hd.
    unfold parseInt. cbn [app trimStart].
    assert (Hws : isWhiteSpace d = false).
    { unfold digitValue in Hd.
      destruct ((48 <=? d) && (d <=? 57))%N eqn:E; [| contradiction].
      apply andb_prop in E. destruct E as [E1 E2].
      apply N.leb_le in E1. apply N.leb_le in E2.
      unfold isWhiteSpace. cbn [existsb].
      repeat match goal with
             | |- context [N.eqb d ?n] =>
                 destruct (N.eqb_spec d n); [lia |]
             end.
      cbn [orb]. destruct (N.leb_spec 8192 d); [lia | reflexivity]. }
    rewrite Hws.
    assert (H45 : (d =? 45)%N = false).
    { unfold digitValue in Hd.
      destruct ((48 <=? d) && (d <=? 57))%N eqn:E; [| contradiction].
      apply andb_prop in E. destruct E as [E1 _]. apply N.leb_le in E1.
      apply N.eqb_neq. lia. }
    assert (H43 : (d =? 43)%N = false).
    { unfold digitValue in Hd.
      destruct ((48 <=? d) && (d <=? 57))%N eqn:E; [| contradiction].
      apply andb_prop in E. destruct E as [E1 _]. apply N.leb_le in E1.
      apply N.eqb_neq. lia. }
    rewrite H45, H43.
    change (d :: digits ++ c :: rest) with ((d :: digits) ++ c :: rest).
    rewrite parseDigits_prefix by assumption. reflexivity. }
  unfold getMachineId. cbn [MACHINE_ID]. rewrite Hsome, Hparse. reflexivity.
Qed.

Lemma getMachineId_trailing_witness :
  getMachineId {| MACHINE_ID := Some (js "12" ++ 97%N :: js "bc"); hostname := [] |} =
  getMachineId {| MACHINE_ID := Some (js "12"); hostname := [] |}.
Proof.
  apply (getMachineId_trailing
           {| MACHINE_ID := Some (js "12" ++ 97%N :: js "bc"); hostname := [] |}
           (js "12") 97%N (js "bc")).
  - reflexivity.
  - discriminate.
  - repeat constructor; discriminate.
  - reflexivity.
Defined.

End IdGeneratorMore.

(** ** The retry loop of the shorten route *)

Module ShortenFacts.
Import IdGenerator IdGeneratorFacts Shorten.

Example mint_after_skew :
  mint (Int 5) (fun w => w)
    {| sequence := 0; lastTimestamp := 9; clock := [EPOCH + 8; EPOCH + 9] |} =
  Some (Normal (Some (37769217, js "2ytuV")),
        {| sequence := 1; lastTimestamp := 9; clock := [] |}).
Proof. reflexivity. Qed.

(** The loop, attempt by attempt. *)
Lemma retry_loop_eq
    (machineId : number) (elsewhere : World -> World) (retries : Z) (w : World) :
  retry_loop machineId elsewhere retries w =
  if retries <? MAX_RETRIES then
    match generateId machineId w with
    | None => None
    | Some (Normal id, w') =>
        Some (Normal (Some (id, Base62.encodeBase62 id)), w')
    | Some (Throw idError, w') =>
        if includes (message idError) (js "Clock moved backward") then
          if MAX_RETRIES <=? retries + 1 then Some (Throw skewGivenUp, w')
          else retry_loop machineId elsewhere (retries + 1) (elsewhere w')
        else Some (Throw idError, w')
    end
  else Some (Normal None, w).
Proof.
  rewrite retry_loop_equation_1.
  destruct (Z_lt_dec retries MAX_RETRIES) as [Hlt | Hge];
    destruct (Z.ltb_spec retries MAX_RETRIES); try lia;
    simp retry_loop; [| reflexivity].
  destruct (generateId machineId w) as [[[id | idError] w'] |];
    simp retry_loop; try reflexivity.
  destruct (includes (message idError) (js "Clock moved backward"));
    simp retry_loop; [| reflexivity].
  destruct (Z_le_dec MAX_RETRIES (retries + 1)),
    (Z.leb_spec MAX_RETRIES (retries + 1));
    simp retry_loop; try lia; reflexivity.
Qed.

Lemma includes_skewError (skew : Z) :
  includes (message (skewError skew)) (js "Clock moved backward") = true.
Proof. reflexivity. Qed.

(** X17. When the loop completes normally the identifier and the short code
    are defined: the identifier is the one a successful [generateId]
    returned, in the state that call left, and the short code is its
    encoding. *)
Theorem mint_defined
    (machineId : number) (elsewhere : World -> World) (w w' : World)
    (r : option (Z * jsstring)) :
  mint machineId elsewhere w = Some (Normal r, w') ->
  exists id w0,
    r = Some (id, Base62.encodeBase62 id) /\
    generateId machineId w0 = Some (Normal id, w').
Proof.
  unfold mint.
  assert (Hgen : forall (n : nat) retries v,
             (Z.to_nat (MAX_RETRIES - retries) <= n)%nat ->
             retries < MAX_RETRIES ->
             retry_loop machineId elsewhere retries v = Some (Normal r, w') ->
             exists id w0,
               r = Some (id, Base62.encodeBase62 id) /\
               generateId machineId w0 = Some (Normal id, w')).
  { induction n as [| n IH]; intros retries v Hn Hlt; [unfold MAX_RETRIES in *; lia |].
    rewrite retry_loop_eq.
    destruct (Z.ltb_spec retries MAX_RETRIES); [| lia].
    destruct (generateId machineId v) as [[[id | idError] v'] |] eqn:Hcall;
      [| | discriminate].
    - intros [= <- <-]. exists id, v. split; [reflexivity | exact Hcall].
    - destruct (includes (message idError) (js "Clock moved backward"));
        [| discriminate].
      destruct (Z.leb_spec MAX_RETRIES (retries + 1)); [discriminate |].
      apply IH; unfold MAX_RETRIES in *; lia. }
  apply (Hgen 3%nat 0 w); unfold MAX_RETRIES; lia.
Qed.

Lemma mint_defined_witness :
  exists id w0,
    Some (37769217, js "2ytuV") = Some (id, Base62.encodeBase62 id) /\
    generateId (Int 5) w0 =
    Some (Normal id, {| sequence := 1; lastTimestamp := 9; clock := [] |}).
Proof.
  apply (mint_defined (Int 5) (fun w => w)
           {| sequence := 0; lastTimestamp := 9; clock := [EPOCH + 8; EPOCH + 9] |}).
  reflexivity.
Defined.

Lemma retry_loop_skews
    (machineId : number) (elsewhere : World -> World) (j : nat) :
  forall retries w wj,
    0 <= retries ->
    retries + Z.of_nat j < MAX_RETRIES ->
    skews machineId elsewhere j w wj ->
    retry_loop machineId elsewhere retries w =
    retry_loop machineId elsewhere (retries + Z.of_nat j) wj.
Proof.
  induction j as [| j IH]; intros retries w wj H0 Hlt Hskews; cbn [skews] in Hskews.
  - subst wj. rewrite Z.add_0_r. reflexivity.
  - destruct Hskews as [skew [w1 [Hcall Hrest]]].
    rewrite retry_loop_eq, Hcall, includes_skewError.
    destruct (Z.ltb_spec retries MAX_RETRIES); [| lia].
    destruct (Z.leb_spec MAX_RETRIES (retries + 1)); [lia |].
    rewrite (IH (retries + 1) (elsewhere w1) wj) by (try assumption; lia).
    f_equal. lia.
Qed.

(** X18. Up to two attempts in a row that fail because the clock moved
    backward are absorbed: the loop returns what the next attempt mints. *)
Theorem mint_retries
    (machineId : number) (elsewhere : World -> World)
    (j : nat) (w wj w' : World) (id : Z) :
  (j <= 2)%nat ->
  skews machineId elsewhere j w wj ->
  generateId machineId wj = Some (Normal id, w') ->
  mint machineId elsewhere w =
  Some (Normal (Some (id, Base62.encodeBase62 id)), w').
Proof.
  intros Hj Hskews Hcall. unfold mint.
  rewrite (retry_loop_skews machineId elsewhere j 0 w wj)
    by (unfold MAX_RETRIES; try assumption; lia).
  rewrite retry_loop_eq, Hcall.
  destruct (Z.ltb_spec (0 + Z.of_nat j) MAX_RETRIES);
    [reflexivity | unfold MAX_RETRIES in *; lia].
Qed.

Lemma mint_retries_witness :
  mint (Int 5) (fun w => w)
    {| sequence := 0; lastTimestamp := 9;
       clock := [EPOCH + 8; EPOCH + 7; EPOCH + 9] |} =
  Some (Normal (Some (37769217, Base62.encodeBase62 37769217)),
        {| sequence := 1; lastTimestamp := 9; clock := [] |}).
Proof.
  apply (mint_retries (Int 5) (fun w => w) 2
           {| sequence := 0; lastTimestamp := 9;
              clock := [EPOCH + 8; EPOCH + 7; EPOCH + 9] |}
           {| sequence := 0; lastTimestamp := 9; clock := [EPOCH + 9] |}).
  - apply le_n.
  - exists 1, {| sequence := 0; lastTimestamp := 9; clock := [EPOCH + 7; EPOCH + 9] |}.
    split; [reflexivity |].
    exists 2, {| sequence := 0; lastTimestamp := 9; clock := [EPOCH + 9] |}.
    split; reflexivity.
  - reflexivity.
Defined.

(** X19. The third attempt in a row that fails because the clock moved
    backward ends the loop: the handler throws "Clock skew detected. Server
    time synchronization required." and calls [generateId] no more. *)
Theorem mint_gives_up
    (machineId : number) (elsewhere : World -> World)
    (w w2 w3 : World) (skew : Z) :
  skews machineId elsewhere 2 w w2 ->
  generateId machineId w2 = Some (Throw (skewError skew), w3) ->
  mint machineId elsewhere w = Some (Throw skewGivenUp, w3).
Proof.
  intros Hskews Hcall. unfold mint.
  rewrite (retry_loop_skews machineId elsewhere 2 0 w w2)
    by (unfold MAX_RETRIES; try assumption; lia).
  rewrite retry_loop_eq, Hcall, includes_skewError. reflexivity.
Qed.

Lemma mint_gives_up_witness :
  mint (Int 5) (fun w => w)
    {| sequence := 0; lastTimestamp := 9;
       clock := [EPOCH + 8; EPOCH + 7; EPOCH + 8; EPOCH + 9] |} =
  Some (Throw skewGivenUp,
        {| sequence := 0; lastTimestamp := 9; clock := [EPOCH + 9] |}).
Proof.
  apply (mint_gives_up (Int 5) (fun w => w) _
           {| sequence := 0; lastTimestamp := 9; clock := [EPOCH + 8; EPOCH + 9] |}
           {| sequence := 0; lastTimestamp := 9; clock := [EPOCH + 9] |} 1).
  - exists 1, {| sequence := 0; lastTimestamp := 9;
                 clock := [EPOCH + 7; EPOCH + 8; EPOCH + 9] |}.
    split; [reflexivity |].
    exists 2, {| sequence := 0; lastTimestamp := 9; clock := [EPOCH + 8; EPOCH + 9] |}.
    split; reflexivity.
  - reflexivity.
Defined.

(** X20. Only clock skew is retried.  Any other throw of [generateId], the
    [RangeError] of a node identifier that is not a number, leaves the loop
    at once, unchanged. *)
Theorem mint_rethrows
    (machineId : number) (elsewhere : World -> World) (w w1 : World) (e : exn) :
  generateId machineId w = Some (Throw e, w1) ->
  includes (message e) (js "Clock moved backward") = false ->
  e = RangeError /\ machineId = NaN /\
  mint machineId elsewhere w = Some (Throw RangeError, w1).
Proof.
  intros Hcall Hmsg.
  assert (He : e = RangeError /\ machineId = NaN).
  { revert Hcall. rewrite generateId_eq.
    destruct (clock w) as [| now rest]; [discriminate |]. cbn zeta.
    destruct (now - EPOCH <? lastTimestamp w).
    - intros [= <- _]. rewrite includes_skewError in Hmsg. discriminate.
    - unfold finish. destruct machineId as [| k].
      + destruct (now - EPOCH =? lastTimestamp w);
          [destruct (Number_and (sequence w + 1) MAX_SEQUENCE =? 0);
           [destruct (poll (lastTimestamp w) rest) as [[? ?] |] |] |];
          try discriminate; intros [= <- _]; split; reflexivity.
      + destruct (now - EPOCH =? lastTimestamp w);
          [destruct (Number_and (sequence w + 1) MAX_SEQUENCE =? 0);
           [destruct (poll (lastTimestamp w) rest) as [[? ?] |] |] |];
          discriminate. }
  destruct He as [-> ->]. repeat split.
  unfold mint. rewrite retry_loop_eq, Hcall. reflexivity.
Qed.

Lemma mint_rethrows_witness :
  RangeError = RangeError /\ NaN = NaN /\
  mint NaN (fun w => w) (init [EPOCH + 5]) =
  Some (Throw RangeError, {| sequence := 0; lastTimestamp := 5; clock := [] |}).
Proof.
  apply (mint_rethrows NaN (fun w => w) (init [EPOCH + 5])
           {| sequence := 0; lastTimestamp := 5; clock := [] |} RangeError);
    reflexivity.
Defined.

End ShortenFacts.

(** ** The rate limiter *)

Module RateLimiterFacts.
Import RateLimiter.

Lemma same_spec (a b : jsstring) : same a b = true <-> a = b.
Proof.
  unfold same. destruct (list_eq_dec N.eq_dec a b); split; congruence.
Qed.

Lemma same_refl (a : jsstring) : same a a = true.
Proof. apply same_spec. reflexivity. Qed.

Lemma same_neq (a b : jsstring) : a <> b -> same a b = false.
Proof.
  intros H. destruct (same a b) eqn:E; [| reflexivity].
  apply same_spec in E. contradiction.
Qed.

Lemma Map_get_set (store : Store) (key key' : jsstring) (value : Entry) :
  Map_get (Map_set store key value) key' =
  if same key key' then Some value else Map_get store key'.
Proof.
  induction store as [| [k v] store IH]; cbn [Map_set Map_get].
  - reflexivity.
  - destruct (same k key) eqn:E; cbn [Map_get].
    + apply same_spec in E. subst k. destruct (same key key'); reflexivity.
    + destruct (same k key') eqn:E'.
      * apply same_spec in E'. subst k. rewrite same_neq; [reflexivity |].
        intros ->. rewrite same_refl in E. discriminate.
      * exact IH.
Qed.

Example shorten_three :
  map passed
    (fst (serve
            (repeat ({| windowMs := None; maxRequests := Some 2; message := None |},
                     {| x_forwarded_for := Some (js "10.0.0.1, 10.0.0.2");
                        connection_remoteAddress := None;
                        socket_remoteAddress := None |}, 5) 3) [])) =
  [true; true; false].
Proof. reflexivity. Qed.

(** The middleware reads the store through the live entry of the client. *)
Lemma rateLimiter_fresh (options : Options) (req : Request) (now : Z) (store : Store) :
  live now store (clientIp req) = None ->
  rateLimiter options req now store =
  (next noHeaders,
   Map_set store (clientIp req)
     {| count := 1; resetTime := now + windowMs' options |}).
Proof.
  unfold live, rateLimiter. intros Hlive.
  destruct (Map_get store (clientIp req)) as [record |]; [| reflexivity].
  destruct (now >? resetTime record); [reflexivity | discriminate].
Qed.

Lemma rateLimiter_counted
    (options : Options) (req : Request) (now : Z) (store : Store) (record : Entry) :
  live now store (clientIp req) = Some record ->
  validTime (resetTime record) = true ->
  exists reply,
    rateLimiter options req now store =
    (reply,
     Map_set store (clientIp req)
       {| count := count record + 1; resetTime := resetTime record |}) /\
    passed reply = (count record + 1 <=? maxRequests' options) /\
    (passed reply = false ->
     exists headers retryAfter,
       reply = json 429 headers (message' options) retryAfter /\
       Retry_After headers = Some (ceilDiv (resetTime record - now) 1000)) /\
    (passed reply = true ->
     reply =
     next {| Retry_After := None;
             X_RateLimit_Limit := Some (maxRequests' options);
             X_RateLimit_Remaining :=
               Some (maxRequests' options - (count record + 1));
             X_RateLimit_Reset := Some (resetTime record) |}).
Proof.
  unfold live, rateLimiter. intros Hlive Hvalid.
  destruct (Map_get store (clientIp req)) as [record' |]; [| discriminate].
  destruct (now >? resetTime record'); [discriminate |].
  injection Hlive as ->. cbn [count resetTime]. rewrite Hvalid.
  destruct (Z.gtb_spec (count record + 1) (maxRequests' options)) as [Hgt | Hle];
    eexists; (split; [reflexivity |]); cbn [passed].
  - split; [symmetry; apply Z.leb_gt; lia |].
    split; [| discriminate].
    intros _. eexists _, _. split; reflexivity.
  - split; [symmetry; apply Z.leb_le; lia |].
    split; [discriminate |].
    intros _. unfold set_X_RateLimit_Reset. cbn. rewrite Z.max_r by lia. reflexivity.
Qed.

(** A counted request whose window ends beyond the dates: the count is
    written and the [RangeError] of [toISOString()] leaves the middleware,
    which neither calls [next()] nor answers. *)
Lemma rateLimiter_invalidTime
    (options : Options) (req : Request) (now : Z) (store : Store) (record : Entry) :
  live now store (clientIp req) = Some record ->
  validTime (resetTime record) = false ->
  exists headers,
    rateLimiter options req now store =
    (invalidTime headers,
     Map_set store (clientIp req)
       {| count := count record + 1; resetTime := resetTime record |}) /\
    X_RateLimit_Reset headers = None.
Proof.
  unfold live, rateLimiter. intros Hlive Hvalid.
  destruct (Map_get store (clientIp req)) as [record' |]; [| discriminate].
  destruct (now >? resetTime record'); [discriminate |].
  injection Hlive as ->. cbn [count resetTime]. rewrite Hvalid.
  destruct (count record + 1 >? maxRequests' options);
    eexists; split; reflexivity.
Qed.

Lemma serve_window (ip : jsstring) (rest : list (Options * Request * Z)) :
  forall (store : Store) (c R : Z),
    Map_get store ip = Some {| count := c; resetTime := R |} ->
    validTime R = true ->
    Forall (fun x => clientIp (snd (fst x)) = ip /\ snd x <= R) rest ->
    List.length (fst (serve rest store)) = List.length rest /\
    forall i o r t,
      nth_error rest i = Some (o, r, t) ->
      exists reply,
        nth_error (fst (serve rest store)) i = Some reply /\
        passed reply = (c + Z.of_nat i + 1 <=? maxRequests' o) /\
        (passed reply = false ->
         exists headers error retryAfter, reply = json 429 headers error retryAfter).
Proof.
  induction rest as [| [[o0 r0] t0] rest IH]; intros store c R Hget Hvalid Hall.
  - split; [reflexivity |]. intros [| i] o r t H; discriminate.
  - apply Forall_cons_iff in Hall. destruct Hall as [[Hip Ht] Hrest].
    cbn [fst snd] in Hip, Ht. cbn [serve].
    assert (Hlive : live t0 store (clientIp r0) =
                    Some {| count := c; resetTime := R |}).
    { unfold live. rewrite Hip, Hget. cbn [resetTime].
      destruct (Z.gtb_spec t0 R); [lia | reflexivity]. }
    destruct (rateLimiter_counted o0 r0 t0 store _ Hlive Hvalid)
      as [reply [Heq [Hpassed [Hblocked _]]]].
    rewrite Heq. cbn [count resetTime] in *.
    set (store1 := Map_set store (clientIp r0)
                     {| count := c + 1; resetTime := R |}).
    assert (Hget1 : Map_get store1 ip = Some {| count := c + 1; resetTime := R |}).
    { unfold store1. rewrite Map_get_set, Hip, same_refl. reflexivity. }
    destruct (IH store1 (c + 1) R Hget1 Hvalid Hrest) as [Hlen Hnth].
    destruct (serve rest store1) as [replies store2] eqn:Hserve.
    cbn [fst] in *. split; [cbn [List.length]; lia |].
    intros [| i] o r t H; cbn [nth_error] in *.
    + injection H as <- <- <-. exists reply. split; [reflexivity |]. split.
      * rewrite Hpassed. f_equal. lia.
      * intros Hb. destruct (Hblocked Hb) as [h [ra [-> _]]].
        eexists _, _, _. reflexivity.
    + destruct (Hnth i o r t H) as [reply' [Hr [Hp Hb]]].
      exists reply'. split; [exact Hr |]. split; [| exact Hb].
      rewrite Hp. f_equal. lia.
Qed.

(** X21. Within one window the store counts every request of a client,
    through whichever limiter it comes.  The request that opens the window
    always passes, without rate-limit headers; the request after it that
    brings the count to [n] passes exactly when [n] is at most the
    [maxRequests] of its own limiter, and is answered with status 429
    otherwise.  The options are safe integers, the clock readings are time
    values, the window ends at a time value and the count stays a safe
    integer. *)
Theorem rateLimiter_window
    (ip : jsstring) (o0 : Options) (r0 : Request) (t0 : Z)
    (rest : list (Options * Request * Z)) (store : Store) :
  clientIp r0 = ip ->
  live t0 store ip = None ->
  Forall (fun x => inRange x = true) ((o0, r0, t0) :: rest) ->
  validTime (t0 + windowMs' o0) = true ->
  Z.of_nat (List.length rest) < MAX_SAFE_INTEGER ->
  Forall (fun x => clientIp (snd (fst x)) = ip /\ snd x <= t0 + windowMs' o0) rest ->
  exists replies,
    fst (serve ((o0, r0, t0) :: rest) store) = next noHeaders :: replies /\
    List.length replies = List.length rest /\
    forall i o r t,
      nth_error rest i = Some (o, r, t) ->
      exists reply,
        nth_error replies i = Some reply /\
        passed reply = (Z.of_nat i + 2 <=? maxRequests' o) /\
        (passed reply = false ->
         exists headers error retryAfter, reply = json 429 headers error retryAfter).
Proof.
  intros Hip Hlive _ Hvalid _ Hall. cbn [serve].
  rewrite rateLimiter_fresh by (rewrite Hip; exact Hlive).
  set (store1 := Map_set store (clientIp r0)
                   {| count := 1; resetTime := t0 + windowMs' o0 |}).
  assert (Hget1 : Map_get store1 ip =
                  Some {| count := 1; resetTime := t0 + windowMs' o0 |}).
  { unfold store1. rewrite Map_get_set, Hip, same_refl. reflexivity. }
  destruct (serve_window ip rest store1 1 _ Hget1 Hvalid Hall) as [Hlen Hnth].
  destruct (serve rest store1) as [replies store2] eqn:Hserve.
  cbn [fst] in *. exists replies. split; [reflexivity |]. split; [exact Hlen |].
  intros i o r t H. destruct (Hnth i o r t H) as [reply [Hr [Hp Hb]]].
  exists reply. split; [exact Hr |]. split; [| exact Hb].
  rewrite Hp. f_equal. lia.
Qed.

Lemma rateLimiter_window_witness :
  exists replies,
    fst (serve
           ((Build_Options None (Some 2) None,
             Build_Request (Some (js "10.0.0.1, 10.0.0.2")) None None, 5)
            :: repeat (Build_Options None (Some 2) None,
                       Build_Request None (Some (js "10.0.0.1")) None, 60005) 2)
           []) = next noHeaders :: replies /\
    List.length replies = 2%nat /\
    forall i o r t,
      nth_error (repeat (Build_Options None (Some 2) None,
                         Build_Request None (Some (js "10.0.0.1")) None, 60005) 2) i =
      Some (o, r, t) ->
      exists reply,
        nth_error replies i = Some reply /\
        passed reply = (Z.of_nat i + 2 <=? maxRequests' o) /\
        (passed reply = false ->
         exists headers error retryAfter, reply = json 429 headers error retryAfter).
Proof.
  apply (rateLimiter_window (js "10.0.0.1")).
  - reflexivity.
  - reflexivity.
  - repeat constructor.
  - reflexivity.
  - reflexivity.
  - repeat constructor; discriminate.
Defined.

Lemma live_set (now : Z) (store : Store) (key ip : jsstring) (value : Entry) :
  live now (Map_set store key value) ip =
  if same key ip then (if now >? resetTime value then None else Some value)
  else live now store ip.
Proof.
  unfold live. rewrite Map_get_set. destruct (same key ip); reflexivity.
Qed.

(** The reply and the entry written depend on the store through the live
    entry of the client only. *)
Lemma rateLimiter_live
    (options : Options) (req : Request) (now : Z) (store store2 : Store) :
  live now store2 (clientIp req) = live now store (clientIp req) ->
  exists reply value,
    rateLimiter options req now store =
    (reply, Map_set store (clientIp req) value) /\
    rateLimiter options req now store2 =
    (reply, Map_set store2 (clientIp req) value).
Proof.
  unfold live, rateLimiter.
  destruct (Map_get store (clientIp req)) as [r1 |],
    (Map_get store2 (clientIp req)) as [r2 |];
    try destruct (now >? resetTime r1); try destruct (now >? resetTime r2);
    intros Hlive; try discriminate Hlive;
    try (eexists _, _; split; reflexivity).
  injection Hlive as ->. cbn [count resetTime].
  destruct (count r1 + 1 >? maxRequests' options), (validTime (resetTime r1));
    eexists _, _; split; reflexivity.
Qed.

(** X22. A request touches the entry of its own client only, and its reply
    depends on no other entry: clients, as told apart by the first address
    of [X-Forwarded-For] or else the remote address, are limited
    independently. *)
Theorem rateLimiter_independent
    (options : Options) (req : Request) (now : Z) (store : Store) :
  (forall ip,
     ip <> clientIp req ->
     Map_get (snd (rateLimiter options req now store)) ip = Map_get store ip) /\
  (forall store2,
     live now store2 (clientIp req) = live now store (clientIp req) ->
     fst (rateLimiter options req now store2) =
     fst (rateLimiter options req now store)).
Proof.
  split.
  - intros ip Hne.
    destruct (rateLimiter_live options req now store store eq_refl)
      as [reply [value [Heq _]]].
    rewrite Heq. cbn [snd]. rewrite Map_get_set, same_neq by congruence.
    reflexivity.
  - intros store2 Hlive.
    destruct (rateLimiter_live options req now store store2 Hlive)
      as [reply [value [Heq Heq2]]].
    rewrite Heq, Heq2. reflexivity.
Qed.

Lemma rateLimiter_independent_witness :
  Map_get
    (snd (shortenRateLimiter (Build_Request (Some (js "10.0.0.1")) None None) 7
            [(js "10.0.0.2", Build_Entry 50 60000)]))
    (js "10.0.0.2") =
  Map_get [(js "10.0.0.2", Build_Entry 50 60000)] (js "10.0.0.2") /\
  fst (shortenRateLimiter (Build_Request (Some (js "10.0.0.1")) None None) 7 []) =
  fst (shortenRateLimiter (Build_Request (Some (js "10.0.0.1")) None None) 7
         [(js "10.0.0.2", Build_Entry 50 60000)]).
Proof.
  split.
  - apply (proj1 (rateLimiter_independent _ _ _ _)). discriminate.
  - apply (proj2 (rateLimiter_independent _ _ _ _)). reflexivity.
Defined.

Lemma Map_get_delete (store : Store) (key ip : jsstring) :
  Map_get (Map_delete store key) ip =
  if same key ip then None else Map_get store ip.
Proof.
  unfold Map_delete.
  induction store as [| [k v] store IH]; cbn [filter Map_get fst].
  - destruct (same key ip); reflexivity.
  - destruct (same k key) eqn:E; cbn [negb].
    + apply same_spec in E. subst k. rewrite IH.
      destruct (same key ip); reflexivity.
    + cbn [Map_get]. rewrite IH. destruct (same k ip) eqn:E'; [| reflexivity].
      apply same_spec in E'. subst k. rewrite same_neq; [reflexivity |].
      intros ->. rewrite same_refl in E. discriminate.
Qed.

Lemma cleanup_fold (now : Z) (ip : jsstring) (entries : Store) :
  forall acc,
    Map_get
      (fold_left
         (fun live kv =>
            if now >? resetTime (snd kv) then Map_delete live (fst kv) else live)
         entries acc) ip =
    if existsb (fun kv => same (fst kv) ip && (now >? resetTime (snd kv))) entries
    then None else Map_get acc ip.
Proof.
  induction entries as [| [k v] entries IH]; intros acc; cbn [fold_left existsb fst snd].
  - reflexivity.
  - rewrite IH. destruct (now >? resetTime v); cbn [andb orb].
    + rewrite Map_get_delete. rewrite andb_true_r.
      destruct (same k ip); cbn [orb];
        [destruct (existsb _ entries); reflexivity | reflexivity].
    + rewrite andb_false_r. reflexivity.
Qed.

(** After the periodic cleanup the store holds, for each client, the entry
    that had not expired. *)
Lemma cleanup_get (now : Z) (store : Store) (ip : jsstring) :
  NoDup (map fst store) ->
  Map_get (cleanup now store) ip = live now store ip.
Proof.
  intros Hwf. unfold cleanup, live. rewrite cleanup_fold.
  induction store as [| [k v] store IH]; cbn [existsb Map_get fst snd map] in *.
  - reflexivity.
  - inversion Hwf as [| ? ? Hnot Hwf']; subst.
    destruct (same k ip) eqn:E; cbn [andb orb].
    + apply same_spec in E. subst k.
      assert (Hno : existsb (fun kv => same (fst kv) ip && (now >? resetTime (snd kv)))
                      store = false).
      { clear - Hnot. induction store as [| [k' v'] store IH]; cbn [existsb fst snd];
          [reflexivity |].
        cbn [map fst] in Hnot.
        rewrite same_neq by (intros ->; apply Hnot; left; reflexivity).
        cbn [andb orb]. apply IH. intros Hin. apply Hnot. right. exact Hin. }
      rewrite Hno, orb_false_r. destruct (now >? resetTime v); reflexivity.
    + apply IH. exact Hwf'.
Qed.

Lemma serve_agree (tc : Z) (requests : list (Options * Request * Z)) :
  forall store store2,
    (forall now ip, tc <= now -> live now store2 ip = live now store ip) ->
    Forall (fun x => tc <= snd x) requests ->
    fst (serve requests store2) = fst (serve requests store).
Proof.
  induction requests as [| [[o r] t] requests IH]; intros store store2 Hagree Hall;
    cbn [serve]; [reflexivity |].
  apply Forall_cons_iff in Hall. destruct Hall as [Ht Hrest]. cbn [snd] in Ht.
  destruct (rateLimiter_live o r t store store2 (Hagree t _ Ht))
    as [reply [value [Heq Heq2]]].
  rewrite Heq, Heq2.
  specialize (IH (Map_set store (clientIp r) value)
                 (Map_set store2 (clientIp r) value)).
  destruct (serve requests (Map_set store (clientIp r) value)) as [replies s1].
  destruct (serve requests (Map_set store2 (clientIp r) value)) as [replies2 s2].
  cbn [fst] in *. f_equal. apply IH; [| exact Hrest].
  intros now ip Hnow. rewrite !live_set.
  destruct (same (clientIp r) ip); [reflexivity | apply Hagree; exact Hnow].
Qed.

(** X23. The periodic cleanup is invisible to the clients: whatever requests
    arrive after it, they get the replies they would have got without it. *)
Theorem cleanup_transparent
    (tc : Z) (store : Store) (requests : list (Options * Request * Z)) :
  NoDup (map fst store) ->
  Forall (fun x => tc <= snd x) requests ->
  fst (serve requests (cleanup tc store)) = fst (serve requests store).
Proof.
  intros Hwf Hall. apply (serve_agree tc); [| exact Hall].
  intros now ip Hnow. unfold live at 1. rewrite cleanup_get by exact Hwf.
  unfold live. destruct (Map_get store ip) as [record |]; [| reflexivity].
  destruct (Z.gtb_spec tc (resetTime record)), (Z.gtb_spec now (resetTime record));
    try reflexivity; lia.
Qed.

Lemma cleanup_transparent_witness :
  fst (serve [(Build_Options None (Some 2) None,
               Build_Request (Some (js "10.0.0.1")) None None, 70000)]
         (cleanup 65000 [(js "10.0.0.1", Build_Entry 9 60000);
                         (js "10.0.0.2", Build_Entry 3 66000)])) =
  fst (serve [(Build_Options None (Some 2) None,
               Build_Request (Some (js "10.0.0.1")) None None, 70000)]
         [(js "10.0.0.1", Build_Entry 9 60000);
          (js "10.0.0.2", Build_Entry 3 66000)]).
Proof.
  apply cleanup_transparent.
  - repeat constructor; cbn; intuition discriminate.
  - repeat constructor; discriminate.
Defined.

(** X24. A refused client is told to retry after the number of seconds that
    remain in the window, rounded up.  A retry made exactly that long after
    the refusal opens a new window and passes, unless the remaining time
    was a whole number of seconds: then the retry falls on the last
    millisecond of the window and is refused again.  The options and the
    count are safe integers, the clock reading is a time value not before
    1970 and the window ends at a time value. *)
Theorem rateLimiter_retry_after
    (options : Options) (req : Request) (now : Z) (store : Store) (record : Entry) :
  live now store (clientIp req) = Some record ->
  maxRequests' options < count record + 1 ->
  inRange (options, req, now) = true ->
  0 <= now ->
  validTime (resetTime record) = true ->
  0 <= count record < MAX_SAFE_INTEGER ->
  exists headers error text store1 retryAfter,
    rateLimiter options req now store = (json 429 headers error text, store1) /\
    Retry_After headers = Some retryAfter /\
    retryAfter = ceilDiv (resetTime record - now) 1000 /\
    resetTime record <= now + 1000 * retryAfter < resetTime record + 1000 /\
    passed (fst (rateLimiter options req (now + 1000 * retryAfter) store1)) =
    negb ((resetTime record - now) mod 1000 =? 0).
Proof.
  intros Hlive Hover _ _ Hvalid _.
  destruct (rateLimiter_counted options req now store record Hlive Hvalid)
    as [reply [Heq [Hp [Hb _]]]].
  assert (Hblocked : passed reply = false).
  { rewrite Hp. apply Z.leb_gt. lia. }
  destruct (Hb Hblocked) as [headers [text [-> Hra]]].
  eexists headers, _, text, _, _. split; [exact Heq |]. split; [exact Hra |].
  split; [reflexivity |].
  set (a := resetTime record - now).
  unfold ceilDiv.
  pose proof (Z.div_mod (- a) 1000 ltac:(lia)) as Hdm.
  pose proof (Z.mod_pos_bound (- a) 1000 ltac:(lia)) as Hr.
  pose proof (Z.div_mod a 1000 ltac:(lia)) as Hdm'.
  pose proof (Z.mod_pos_bound a 1000 ltac:(lia)) as Hr'.
  split; [subst a; lia |].
  set (store1 := Map_set store (clientIp req)
                   {| count := count record + 1; resetTime := resetTime record |}).
  set (now' := now + 1000 * - (- a / 1000)).
  destruct (Z.eqb_spec (a mod 1000) 0) as [Hz | Hnz]; cbn [negb].
  - assert (Hlive1 : live now' store1 (clientIp req) =
                     Some {| count := count record + 1;
                             resetTime := resetTime record |}).
    { unfold store1. rewrite live_set, same_refl. cbn [resetTime].
      destruct (Z.gtb_spec now' (resetTime record)); [| reflexivity].
      subst now' a. lia. }
    destruct (rateLimiter_counted options req now' store1 _ Hlive1 Hvalid)
      as [reply2 [Heq2 [Hp2 _]]].
    rewrite Heq2. cbn [fst]. rewrite Hp2. cbn [count]. apply Z.leb_gt. lia.
  - assert (Hlive1 : live now' store1 (clientIp req) = None).
    { unfold store1. rewrite live_set, same_refl. cbn [resetTime].
      destruct (Z.gtb_spec now' (resetTime record)); [reflexivity |].
      subst now' a. lia. }
    rewrite (rateLimiter_fresh options req now' store1 Hlive1). reflexivity.
Qed.

Lemma rateLimiter_retry_after_witness :
  exists headers error text store1 retryAfter,
    rateLimiter (Build_Options None (Some 2) None)
      (Build_Request (Some (js "10.0.0.1")) None None) 59000
      [(js "10.0.0.1", Build_Entry 2 60000)] =
    (json 429 headers error text, store1) /\
    Retry_After headers = Some retryAfter /\
    retryAfter = ceilDiv (60000 - 59000) 1000 /\
    60000 <= 59000 + 1000 * retryAfter < 60000 + 1000 /\
    passed (fst (rateLimiter (Build_Options None (Some 2) None)
                   (Build_Request (Some (js "10.0.0.1")) None None)
                   (59000 + 1000 * retryAfter) store1)) =
    negb ((60000 - 59000) mod 1000 =? 0).
Proof.
  apply (rateLimiter_retry_after (Build_Options None (Some 2) None)
           (Build_Request (Some (js "10.0.0.1")) None None) 59000
           [(js "10.0.0.1", Build_Entry 2 60000)] (Build_Entry 2 60000));
    try reflexivity; try lia.
  cbn [count]. unfold MAX_SAFE_INTEGER. lia.
Defined.

End RateLimiterFacts.

(** ** The circuit breaker *)

Module CircuitBreakerFacts.
Import CircuitBreaker.

(** Five failures in a row open the breaker of the database. *)
Example db_trips :
  state (breaker (executes
                    (repeat (Build_Call unit unit nat
                               (fun n => (inr tt, S n)) None 0 100) 5)
                    dbCircuitBreaker O)) = OPEN.
Proof. reflexivity. Qed.

Section Facts.

Context {A E S : Type}.

Lemma executes_cons (c : Call A E S) (rest : list (Call A E S)) (b : Breaker) (s : S) :
  executes (c :: rest) b s =
  let r := execute (call_fn c) (call_fallback c) (call_now c) (call_later c) b s in
  let run := executes rest (snd (fst r)) (snd r) in
  {| results := fst (fst r) :: results run; breaker := breaker run;
     service := service run |}.
Proof.
  cbn [executes].
  destruct (execute (call_fn c) (call_fallback c) (call_now c) (call_later c) b s)
    as [[r b1] s1].
  reflexivity.
Qed.

Lemma executes_app (l l' : list (Call A E S)) :
  forall b s,
    executes (l ++ l') b s =
    let run := executes l b s in
    let run' := executes l' (breaker run) (service run) in
    {| results := results run ++ results run'; breaker := breaker run';
       service := service run' |}.
Proof.
  induction l as [| c l IH]; intros b s.
  - cbn. destruct (executes l' b s). reflexivity.
  - cbn [app]. rewrite !executes_cons. cbn zeta. rewrite IH. reflexivity.
Qed.

(** A failure of the protected function in a closed breaker. *)
Lemma execute_failure_closed
    (fn : Fn A E S) (fallback : option (Fn A E S)) (now later : Z)
    (b : Breaker) (s : S) :
  state b = CLOSED -> fails fn ->
  exists e s',
    fn s = (inr e, s') /\
    snd (fst (execute fn fallback now later b s)) = onFailure later b /\
    (state (onFailure later b) = CLOSED ->
     execute fn fallback now later b s =
     (inr (Rejected e), onFailure later b, s')).
Proof.
  intros Hstate Hfails. destruct (Hfails s) as [e [s' Hfn]].
  exists e, s'. split; [exact Hfn |].
  unfold execute, enter. rewrite Hstate, Hfn.
  destruct (state (onFailure later b)) eqn:Hs; cbn [fst snd].
  - split; [reflexivity |]. reflexivity.
  - split; [| discriminate].
    destruct fallback as [f |]; [| reflexivity].
    destruct (call f s') as [r s'']. reflexivity.
  - split; [reflexivity | discriminate].
Qed.

Lemma onFailure_fields (later : Z) (b : Breaker) :
  failureCount (onFailure later b) = failureCount b + 1 /\
  lastFailureTime (onFailure later b) = Some later /\
  failureThreshold (onFailure later b) = failureThreshold b /\
  successThreshold (onFailure later b) = successThreshold b /\
  resetTimeout (onFailure later b) = resetTimeout b /\
  name (onFailure later b) = name b /\
  state (onFailure later b) =
  (if failureCount b + 1 >=? failureThreshold b then OPEN else state b).
Proof.
  unfold onFailure. cbn.
  destruct (failureCount b + 1 >=? failureThreshold b); cbn; repeat split.
Qed.

Lemma trip_below (calls : list (Call A E S)) :
  forall (b : Breaker) (s : S),
    state b = CLOSED ->
    Forall (fun c => fails (call_fn c)) calls ->
    failureCount b + Z.of_nat (List.length calls) < failureThreshold b ->
    state (breaker (executes calls b s)) = CLOSED /\
    failureCount (breaker (executes calls b s)) =
    failureCount b + Z.of_nat (List.length calls) /\
    failureThreshold (breaker (executes calls b s)) = failureThreshold b /\
    Forall (fun r => exists e, r = inr (Rejected e)) (results (executes calls b s)).
Proof.
  induction calls as [| c calls IH]; intros b s Hstate Hall Hlt.
  - cbn. repeat split; try assumption; try lia. constructor.
  - apply Forall_cons_iff in Hall. destruct Hall as [Hc Hrest].
    cbn [List.length] in Hlt. rewrite executes_cons. cbn zeta.
    destruct (execute_failure_closed (call_fn c) (call_fallback c) (call_now c)
                (call_later c) b s Hstate Hc) as [e [s' [Hfn [Hb Hexec]]]].
    destruct (onFailure_fields (call_later c) b) as [Hfc [_ [Hft [_ [_ [_ Hst]]]]]].
    assert (Hclosed : state (onFailure (call_later c) b) = CLOSED).
    { rewrite Hst. destruct (Z.geb_spec (failureCount b + 1) (failureThreshold b));
        [lia | exact Hstate]. }
    specialize (Hexec Hclosed). rewrite Hexec. cbn [fst snd results breaker].
    destruct (IH (onFailure (call_later c) b) s' Hclosed Hrest ltac:(lia))
      as [H1 [H2 [H3 H4]]].
    repeat split.
    + exact H1.
    + rewrite H2, Hfc. cbn [List.length]. lia.
    + rewrite H3. exact Hft.
    + constructor; [eexists; reflexivity | exact H4].
Qed.

(** X25. A closed breaker opens at the failure that brings the count of
    consecutive failures to [failureThreshold], not earlier: until then
    every failure is rethrown to the caller as it is and the breaker stays
    closed. *)
Theorem breaker_trips
    (calls : list (Call A E S)) (last : Call A E S) (b : Breaker) (s : S) :
  state b = CLOSED ->
  failureCount b = 0 ->
  Forall (fun c => fails (call_fn c)) (calls ++ [last]) ->
  Z.of_nat (List.length calls) + 1 = failureThreshold b ->
  state (breaker (executes calls b s)) = CLOSED /\
  Forall (fun r => exists e, r = inr (Rejected e)) (results (executes calls b s)) /\
  state (breaker (executes (calls ++ [last]) b s)) = OPEN /\
  failureCount (breaker (executes (calls ++ [last]) b s)) = failureThreshold b /\
  lastFailureTime (breaker (executes (calls ++ [last]) b s)) =
  Some (call_later last).
Proof.
  intros Hstate Hzero Hall Hlen.
  apply Forall_app in Hall. destruct Hall as [Hcalls Hlast].
  apply Forall_inv in Hlast.
  destruct (trip_below calls b s Hstate Hcalls ltac:(lia)) as [H1 [H2 [H3 H4]]].
  split; [exact H1 |]. split; [exact H4 |].
  rewrite executes_app. cbn zeta. cbn [breaker]. rewrite executes_cons.
  cbn zeta. cbn [breaker executes].
  destruct (execute_failure_closed (call_fn last) (call_fallback last)
              (call_now last) (call_later last)
              (breaker (executes calls b s)) (service (executes calls b s))
              H1 Hlast) as [e [s' [_ [Hb _]]]].
  rewrite Hb.
  destruct (onFailure_fields (call_later last) (breaker (executes calls b s)))
    as [Hfc [Hlf [Hft [_ [_ [_ Hst]]]]]].
  rewrite Hst, Hfc, Hlf, H2, H3, Hzero.
  destruct (Z.geb_spec (0 + Z.of_nat (List.length calls) + 1) (failureThreshold b));
    [| lia].
  repeat split. lia.
Qed.

Lemma execute_open
    (fn : Fn A E S) (fallback : option (Fn A E S)) (now later : Z)
    (b : Breaker) (s : S) :
  state b = OPEN ->
  sinceLastFailure now b <= resetTimeout b ->
  execute fn fallback now later b s =
  match fallback with
  | Some f => (fst (call f s), b, snd (call f s))
  | None => (inr (CircuitOpen (name b ++ js " circuit breaker is OPEN")), b, s)
  end.
Proof.
  intros Hstate Hsince. unfold execute, enter. rewrite Hstate.
  destruct (Z.gtb_spec (sinceLastFailure now b) (resetTimeout b)); [lia |].
  destruct fallback as [f |]; [| reflexivity].
  destruct (call f s). reflexivity.
Qed.

(** X26. While a breaker is open and the reset timeout has not passed since
    the last failure, no call reaches the protected function, whatever it
    is, and the breaker does not change: a call with a fallback gets the
    fallback's result, a call without one gets the error
    "<name> circuit breaker is OPEN". *)
Theorem breaker_fails_fast
    (calls : list (Call A E S)) (b : Breaker) (s : S) :
  state b = OPEN ->
  Forall (fun c => sinceLastFailure (call_now c) b <= resetTimeout b) calls ->
  breaker (executes calls b s) = b /\
  (forall g, executes (map (with_fn g) calls) b s = executes calls b s) /\
  Forall2 (fun c r =>
             match call_fallback c with
             | Some f => exists s0, r = fst (call f s0)
             | None => r = inr (CircuitOpen (name b ++ js " circuit breaker is OPEN"))
             end)
          calls (results (executes calls b s)).
Proof.
  intros Hstate Hall. revert s.
  induction Hall as [| c calls Hc _ IH]; intros s.
  - cbn. repeat split. constructor.
  - rewrite executes_cons. cbn zeta.
    rewrite (execute_open (call_fn c) (call_fallback c) (call_now c)
               (call_later c) b s Hstate Hc).
    destruct (call_fallback c) as [f |] eqn:Hf; cbn [fst snd results breaker].
    + destruct (IH (snd (call f s))) as [H1 [H2 H3]].
      split; [exact H1 |]. split.
      * intros g. cbn [map]. rewrite executes_cons. cbn zeta.
        cbn [with_fn call_fn call_fallback call_now call_later].
        rewrite Hf. rewrite (execute_open g (Some f) _ _ b s Hstate Hc).
        cbn [fst snd]. rewrite H2. reflexivity.
      * constructor; [rewrite Hf; exists s; reflexivity | exact H3].
    + destruct (IH s) as [H1 [H2 H3]].
      split; [exact H1 |]. split.
      * intros g. cbn [map]. rewrite executes_cons. cbn zeta.
        cbn [with_fn call_fn call_fallback call_now call_later].
        rewrite Hf. rewrite (execute_open g None _ _ b s Hstate Hc).
        cbn [fst snd]. rewrite H2. reflexivity.
      * constructor; [rewrite Hf; reflexivity | exact H3].
Qed.

(** A success of the protected function. *)
Lemma execute_success
    (fn : Fn A E S) (fallback : option (Fn A E S)) (now later : Z)
    (b b1 : Breaker) (s : S) :
  enter now b = Some b1 -> succeeds fn ->
  exists a s',
    fn s = (inl a, s') /\
    execute fn fallback now later b s = (inl a, onSuccess b1, s').
Proof.
  intros Henter Hok. destruct (Hok s) as [a [s' Hfn]].
  exists a, s'. split; [exact Hfn |].
  unfold execute. rewrite Henter, Hfn. reflexivity.
Qed.

Lemma enter_not_open (now : Z) (b : Breaker) :
  state b <> OPEN -> enter now b = Some b.
Proof.
  unfold enter. destruct (state b); [reflexivity | contradiction | reflexivity].
Qed.

Lemma probing_below (calls : list (Call A E S)) :
  forall (b : Breaker) (s : S),
    state b = HALF_OPEN ->
    Forall (fun c => succeeds (call_fn c)) calls ->
    successCount b + Z.of_nat (List.length calls) < successThreshold b ->
    state (breaker (executes calls b s)) = HALF_OPEN /\
    successCount (breaker (executes calls b s)) =
    successCount b + Z.of_nat (List.length calls) /\
    successThreshold (breaker (executes calls b s)) = successThreshold b.
Proof.
  induction calls as [| c calls IH]; intros b s Hstate Hall Hlt.
  - cbn. repeat split; try assumption; lia.
  - apply Forall_cons_iff in Hall. destruct Hall as [Hc Hrest].
    cbn [List.length] in Hlt. rewrite executes_cons. cbn zeta.
    assert (Henter : enter (call_now c) b = Some b)
      by (apply enter_not_open; congruence).
    destruct (execute_success (call_fn c) (call_fallback c) (call_now c)
                (call_later c) b b s Henter Hc) as [a [s' [_ Hexec]]].
    rewrite Hexec. cbn [fst snd results breaker].
    assert (Hb : onSuccess b = set_successCount (successCount b + 1) b).
    { unfold onSuccess. rewrite Hstate. cbn.
      destruct (Z.geb_spec (successCount b + 1) (successThreshold b));
        [lia | reflexivity]. }
    rewrite Hb.
    destruct (IH (set_successCount (successCount b + 1) b) s')
      as [H1 [H2 H3]]; try assumption; cbn; try lia.
    repeat split; [exact H1 | rewrite H2; cbn; lia | rewrite H3; reflexivity].
Qed.

(** X27. Once the reset timeout has passed since the last failure, an open
    breaker lets calls through again, half-open; it closes, with both
    counters back to 0, at the success that brings the count of successes
    to [successThreshold], and stays half-open until then. *)
Theorem breaker_recovers
    (probe : Call A E S) (more : list (Call A E S)) (last : Call A E S)
    (b : Breaker) (s : S) :
  state b = OPEN ->
  resetTimeout b < sinceLastFailure (call_now probe) b ->
  Forall (fun c => succeeds (call_fn c)) (probe :: more ++ [last]) ->
  Z.of_nat (List.length more) + 2 = successThreshold b ->
  state (breaker (executes (probe :: more) b s)) = HALF_OPEN /\
  state (breaker (executes (probe :: more ++ [last]) b s)) = CLOSED /\
  failureCount (breaker (executes (probe :: more ++ [last]) b s)) = 0 /\
  successCount (breaker (executes (probe :: more ++ [last]) b s)) = 0.
Proof.
  intros Hstate Htime Hall Hlen.
  apply Forall_cons_iff in Hall. destruct Hall as [Hprobe Hall].
  apply Forall_app in Hall. destruct Hall as [Hmore Hlast].
  apply Forall_inv in Hlast.
  set (b1 := set_successCount 0 (set_state HALF_OPEN b)).
  assert (Henter : enter (call_now probe) b = Some b1).
  { unfold enter. rewrite Hstate.
    destruct (Z.gtb_spec (sinceLastFailure (call_now probe) b) (resetTimeout b));
      [reflexivity | lia]. }
  assert (Hb2 : onSuccess b1 = set_successCount 1 b1).
  { unfold onSuccess, b1. cbn.
    destruct (Z.geb_spec 1 (successThreshold b)); [lia | reflexivity]. }
  assert (Hrun : forall l,
             executes (probe :: l) b s =
             let r := execute (call_fn probe) (call_fallback probe)
                        (call_now probe) (call_later probe) b s in
             let run := executes l (set_successCount 1 b1) (snd r) in
             {| results := fst (fst r) :: results run; breaker := breaker run;
                service := service run |}).
  { intros l. rewrite executes_cons. cbn zeta.
    destruct (execute_success (call_fn probe) (call_fallback probe)
                (call_now probe) (call_later probe) b b1 s Henter Hprobe)
      as [a [s' [_ Hexec]]].
    rewrite Hexec, Hb2. reflexivity. }
  rewrite !Hrun. cbn zeta. cbn [breaker].
  set (s1 := snd (execute (call_fn probe) (call_fallback probe)
                    (call_now probe) (call_later probe) b s)).
  destruct (probing_below more (set_successCount 1 b1) s1) as [H1 [H2 H3]];
    try assumption; try reflexivity;
    [unfold b1; cbn [successCount set_successCount successThreshold set_state]; lia |].
  split; [exact H1 |].
  rewrite executes_app. cbn zeta. cbn [breaker]. rewrite executes_cons.
  cbn zeta. cbn [breaker executes].
  set (b3 := breaker (executes more (set_successCount 1 b1) s1)) in *.
  assert (Henter3 : enter (call_now last) b3 = Some b3)
    by (apply enter_not_open; congruence).
  destruct (execute_success (call_fn last) (call_fallback last) (call_now last)
              (call_later last) b3 b3
              (service (executes more (set_successCount 1 b1) s1)) Henter3 Hlast)
    as [a [s' [_ Hexec]]].
  rewrite Hexec. cbn [fst snd].
  unfold onSuccess. rewrite H1. cbn [successCount set_successCount successThreshold].
  rewrite H2, H3. cbn [successCount set_successCount successThreshold b1 set_state].
  destruct (Z.geb_spec (1 + Z.of_nat (List.length more) + 1) (successThreshold b));
    [| lia].
  repeat split.
Qed.

(** X28. A failure while the breaker is half-open, the first probe
    included, opens it again at once and restarts the reset timeout from
    that failure. *)
Theorem breaker_reopens
    (fn : Fn A E S) (fallback : option (Fn A E S)) (now later : Z)
    (b : Breaker) (s : S) :
  consistent b ->
  state b = HALF_OPEN \/
  (state b = OPEN /\ resetTimeout b < sinceLastFailure now b) ->
  fails fn ->
  state (snd (fst (execute fn fallback now later b s))) = OPEN /\
  lastFailureTime (snd (fst (execute fn fallback now later b s))) = Some later /\
  forall now',
    sinceLastFailure now' (snd (fst (execute fn fallback now later b s))) =
    now' - later.
Proof.
  intros Hcons Hstate Hfails. destruct (Hfails s) as [e [s' Hfn]].
  assert (Hthr : failureThreshold b <= failureCount b).
  { apply Hcons. destruct Hstate as [H | [H _]]; congruence. }
  assert (Henter : exists b1,
             enter now b = Some b1 /\ failureCount b1 = failureCount b /\
             failureThreshold b1 = failureThreshold b).
  { unfold enter. destruct Hstate as [H | [H Ht]]; rewrite H.
    - exists b. repeat split.
    - destruct (Z.gtb_spec (sinceLastFailure now b) (resetTimeout b)); [| lia].
      eexists. repeat split. }
  destruct Henter as [b1 [Henter [Hfc Hft]]].
  assert (Hopen : state (onFailure later b1) = OPEN).
  { destruct (onFailure_fields later b1) as [_ [_ [_ [_ [_ [_ Hst]]]]]].
    rewrite Hst. destruct (Z.geb_spec (failureCount b1 + 1) (failureThreshold b1));
      [reflexivity | lia]. }
  assert (Hb : snd (fst (execute fn fallback now later b s)) = onFailure later b1).
  { unfold execute. rewrite Henter, Hfn, Hopen.
    destruct fallback as [f |]; [| reflexivity].
    destruct (call f s'). reflexivity. }
  rewrite Hb. destruct (onFailure_fields later b1) as [_ [Hlf _]].
  split; [exact Hopen |]. split; [exact Hlf |].
  intros now'. unfold sinceLastFailure. rewrite Hlf. reflexivity.
Qed.

Lemma enter_fields (now : Z) (b b1 : Breaker) :
  enter now b = Some b1 ->
  failureThreshold b1 = failureThreshold b /\
  successThreshold b1 = successThreshold b /\
  resetTimeout b1 = resetTimeout b /\ name b1 = name b /\
  failureCount b1 = failureCount b /\ lastFailureTime b1 = lastFailureTime b /\
  state b1 <> OPEN /\ (state b = CLOSED -> state b1 = CLOSED).
Proof.
  unfold enter. destruct (state b) eqn:Hs.
  - intros [= <-]. rewrite Hs. repeat split; congruence.
  - destruct (sinceLastFailure now b >? resetTimeout b); [| discriminate].
    intros [= <-]. cbn. repeat split; discriminate.
  - intros [= <-]. rewrite Hs. repeat split; congruence.
Qed.

Lemma onSuccess_fields (b : Breaker) :
  failureThreshold (onSuccess b) = failureThreshold b /\
  successThreshold (onSuccess b) = successThreshold b /\
  resetTimeout (onSuccess b) = resetTimeout b /\ name (onSuccess b) = name b.
Proof.
  unfold onSuccess. destruct (state b); cbn;
    try destruct (successCount b + 1 >=? successThreshold b); cbn;
    repeat split.
Qed.

Lemma onSuccess_consistent (b : Breaker) :
  state b <> OPEN -> consistent b -> consistent (onSuccess b).
Proof.
  intros Hno Hcons. unfold onSuccess. destruct (state b) eqn:Hs.
  - intros Hne. cbn in Hne. congruence.
  - contradiction.
  - cbn. destruct (successCount b + 1 >=? successThreshold b).
    + intros Hne. cbn in Hne. congruence.
    + intros Hne. cbn. apply Hcons. congruence.
Qed.

Lemma onFailure_consistent (later : Z) (b : Breaker) :
  consistent b -> consistent (onFailure later b).
Proof.
  intros Hcons Hne.
  destruct (onFailure_fields later b) as [Hfc [Hlf [Hft [_ [_ [_ Hst]]]]]].
  rewrite Hfc, Hlf, Hft. split; [| discriminate].
  rewrite Hst in Hne.
  destruct (Z.geb_spec (failureCount b + 1) (failureThreshold b)); [lia |].
  pose proof (Hcons Hne). lia.
Qed.

(** What one call leaves of a breaker. *)
Lemma execute_breaker
    (fn : Fn A E S) (fallback : option (Fn A E S)) (now later : Z)
    (b : Breaker) (s : S) :
  snd (fst (execute fn fallback now later b s)) = b \/
  exists b1,
    enter now b = Some b1 /\
    (snd (fst (execute fn fallback now later b s)) = onSuccess b1 \/
     snd (fst (execute fn fallback now later b s)) = onFailure later b1).
Proof.
  unfold execute. destruct (enter now b) as [b1 |].
  - right. exists b1. split; [reflexivity |].
    destruct (fn s) as [[a | e] s'].
    + left. reflexivity.
    + right. destruct (state (onFailure later b1)), fallback as [f |];
        try destruct (call f s'); reflexivity.
  - left. destruct fallback as [f |]; [destruct (call f s) |]; reflexivity.
Qed.

Lemma execute_consistent
    (fn : Fn A E S) (fallback : option (Fn A E S)) (now later : Z)
    (b : Breaker) (s : S) :
  consistent b ->
  consistent (snd (fst (execute fn fallback now later b s))) /\
  failureThreshold (snd (fst (execute fn fallback now later b s))) =
  failureThreshold b /\
  successThreshold (snd (fst (execute fn fallback now later b s))) =
  successThreshold b /\
  resetTimeout (snd (fst (execute fn fallback now later b s))) = resetTimeout b /\
  name (snd (fst (execute fn fallback now later b s))) = name b.
Proof.
  intros Hcons.
  destruct (execute_breaker fn fallback now later b s)
    as [-> | [b1 [Henter [-> | ->]]]].
  - split; [exact Hcons |]. repeat split.
  - destruct (enter_fields now b b1 Henter)
      as [Hft [Hst [Hrt [Hn [Hfc [Hlf [Hno Hcl]]]]]]].
    assert (Hc1 : consistent b1).
    { intros Hne. rewrite Hft, Hfc, Hlf. apply Hcons. tauto. }
    destruct (onSuccess_fields b1) as [G1 [G2 [G3 G4]]].
    split; [apply onSuccess_consistent; assumption |].
    repeat split; congruence.
  - destruct (enter_fields now b b1 Henter)
      as [Hft [Hst [Hrt [Hn [Hfc [Hlf [Hno Hcl]]]]]]].
    assert (Hc1 : consistent b1).
    { intros Hne. rewrite Hft, Hfc, Hlf. apply Hcons. tauto. }
    destruct (onFailure_fields later b1) as [_ [_ [G1 [G2 [G3 [G4 _]]]]]].
    split; [apply onFailure_consistent; assumption |].
    repeat split; congruence.
Qed.

(** X29. Whatever the protected functions and their fallbacks do, a
    breaker built by the constructor or reset by [reset] is closed or has
    failed at least [failureThreshold] times and knows when it last failed;
    calls change neither its thresholds, nor its reset timeout, nor its
    name. *)
Theorem breaker_invariant
    (options : Options) (calls calls' : list (Call A E S)) (s s' : S) :
  consistent (breaker (executes calls (constructor options) s)) /\
  consistent
    (breaker (executes calls'
                (reset (breaker (executes calls (constructor options) s))) s')) /\
  failureThreshold (breaker (executes calls (constructor options) s)) =
  failureThreshold (constructor options) /\
  successThreshold (breaker (executes calls (constructor options) s)) =
  successThreshold (constructor options) /\
  resetTimeout (breaker (executes calls (constructor options) s)) =
  resetTimeout (constructor options) /\
  name (breaker (executes calls (constructor options) s)) =
  name (constructor options).
Proof.
  assert (Hrun : forall (l : list (Call A E S)) (b : Breaker) (v : S),
             consistent b ->
             consistent (breaker (executes l b v)) /\
             failureThreshold (breaker (executes l b v)) = failureThreshold b /\
             successThreshold (breaker (executes l b v)) = successThreshold b /\
             resetTimeout (breaker (executes l b v)) = resetTimeout b /\
             name (breaker (executes l b v)) = name b).
  { induction l as [| c l IH]; intros b v Hb.
    - cbn. split; [exact Hb | repeat split].
    - rewrite executes_cons. cbn zeta. cbn [breaker].
      destruct (execute_consistent (call_fn c) (call_fallback c) (call_now c)
                  (call_later c) b v Hb) as [H1 [H2 [H3 [H4 H5]]]].
      destruct (IH _ (snd (execute (call_fn c) (call_fallback c) (call_now c)
                             (call_later c) b v)) H1) as [G1 [G2 [G3 [G4 G5]]]].
      split; [exact G1 | repeat split; congruence]. }
  assert (Hnew : consistent (constructor options)) by (intros H; contradiction).
  destruct (Hrun calls (constructor options) s Hnew) as [H1 [H2 [H3 [H4 H5]]]].
  split; [exact H1 |]. split.
  - apply Hrun. intros H. contradiction.
  - repeat split; assumption.
Qed.

(** X30. A success while the breaker is closed sets the count of failures
    back to 0: failures open the breaker only when [failureThreshold] of
    them come in a row, however many there are in all. *)
Theorem breaker_consecutive
    (before : list (Call A E S)) (ok : Call A E S) (after : list (Call A E S))
    (b : Breaker) (s : S) :
  state b = CLOSED ->
  Forall (fun c => fails (call_fn c)) before ->
  failureCount b + Z.of_nat (List.length before) < failureThreshold b ->
  succeeds (call_fn ok) ->
  Forall (fun c => fails (call_fn c)) after ->
  Z.of_nat (List.length after) < failureThreshold b ->
  state (breaker (executes (before ++ ok :: after) b s)) = CLOSED /\
  failureCount (breaker (executes (before ++ ok :: after) b s)) =
  Z.of_nat (List.length after).
Proof.
  intros Hstate Hbefore Hlt Hok Hafter Hlt2.
  destruct (trip_below before b s Hstate Hbefore Hlt) as [H1 [H2 [H3 _]]].
  rewrite executes_app. cbn zeta. cbn [breaker]. rewrite executes_cons.
  cbn zeta. cbn [breaker].
  set (b1 := breaker (executes before b s)) in *.
  assert (Henter : enter (call_now ok) b1 = Some b1)
    by (apply enter_not_open; congruence).
  destruct (execute_success (call_fn ok) (call_fallback ok) (call_now ok)
              (call_later ok) b1 b1 (service (executes before b s)) Henter Hok)
    as [a [s' [_ Hexec]]].
  rewrite Hexec. cbn [fst snd].
  assert (Hb2 : onSuccess b1 = set_failureCount 0 b1).
  { unfold onSuccess. rewrite H1. reflexivity. }
  rewrite Hb2.
  destruct (trip_below after (set_failureCount 0 b1) s') as [G1 [G2 _]];
    try assumption; cbn [state failureCount failureThreshold set_failureCount];
    try lia.
  split; [exact G1 |]. rewrite G2. reflexivity.
Qed.

End Facts.

Lemma breaker_trips_witness :
  state (breaker (executes
                    (repeat (Build_Call unit unit nat
                               (fun n => (inr tt, S n)) None 0 100) 4)
                    dbCircuitBreaker O)) = CLOSED /\
  Forall (fun r => exists e, r = inr (Rejected e))
    (results (executes
                (repeat (Build_Call unit unit nat
                           (fun n => (inr tt, S n)) None 0 100) 4)
                dbCircuitBreaker O)) /\
  state (breaker (executes
                    (repeat (Build_Call unit unit nat
                               (fun n => (inr tt, S n)) None 0 100) 4
                     ++ [Build_Call unit unit nat
                           (fun n => (inr tt, S n)) None 0 100])
                    dbCircuitBreaker O)) = OPEN /\
  failureCount (breaker (executes
                    (repeat (Build_Call unit unit nat
                               (fun n => (inr tt, S n)) None 0 100) 4
                     ++ [Build_Call unit unit nat
                           (fun n => (inr tt, S n)) None 0 100])
                    dbCircuitBreaker O)) = failureThreshold dbCircuitBreaker /\
  lastFailureTime (breaker (executes
                    (repeat (Build_Call unit unit nat
                               (fun n => (inr tt, S n)) None 0 100) 4
                     ++ [Build_Call unit unit nat
                           (fun n => (inr tt, S n)) None 0 100])
                    dbCircuitBreaker O)) = Some 100.
Proof.
  apply (breaker_trips
           (repeat (Build_Call unit unit nat (fun n => (inr tt, S n)) None 0 100) 4)
           (Build_Call unit unit nat (fun n => (inr tt, S n)) None 0 100)
           dbCircuitBreaker O).
  - reflexivity.
  - reflexivity.
  - repeat constructor; intros n; exists tt, (S n); reflexivity.
  - reflexivity.
Defined.

Lemma breaker_fails_fast_witness :
  breaker (executes
             (repeat (Build_Call unit unit nat (fun n => (inl tt, S n)) None 20100 0) 3)
             (set_lastFailureTime (Some 100) (set_state OPEN dbCircuitBreaker)) O) =
  set_lastFailureTime (Some 100) (set_state OPEN dbCircuitBreaker) /\
  (forall g,
     executes
       (map (with_fn g)
          (repeat (Build_Call unit unit nat (fun n => (inl tt, S n)) None 20100 0) 3))
       (set_lastFailureTime (Some 100) (set_state OPEN dbCircuitBreaker)) O =
     executes
       (repeat (Build_Call unit unit nat (fun n => (inl tt, S n)) None 20100 0) 3)
       (set_lastFailureTime (Some 100) (set_state OPEN dbCircuitBreaker)) O) /\
  Forall2 (fun c r =>
             match call_fallback c with
             | Some f => exists s0, r = fst (call f s0)
             | None =>
                 r = inr (CircuitOpen
                            (name (set_lastFailureTime (Some 100)
                                     (set_state OPEN dbCircuitBreaker))
                             ++ js " circuit breaker is OPEN"))
             end)
    (repeat (Build_Call unit unit nat (fun n => (inl tt, S n)) None 20100 0) 3)
    (results (executes
                (repeat (Build_Call unit unit nat (fun n => (inl tt, S n)) None 20100 0) 3)
                (set_lastFailureTime (Some 100) (set_state OPEN dbCircuitBreaker)) O)).
Proof.
  apply (breaker_fails_fast
           (repeat (Build_Call unit unit nat (fun n => (inl tt, S n)) None 20100 0) 3)
           (set_lastFailureTime (Some 100) (set_state OPEN dbCircuitBreaker)) O).
  - reflexivity.
  - repeat constructor; discriminate.
Defined.

Lemma breaker_recovers_witness :
  state (breaker (executes
            [Build_Call unit unit nat (fun n => (inl tt, S n)) None 30101 0]
            (set_lastFailureTime (Some 100) (set_state OPEN dbCircuitBreaker)) O)) =
  HALF_OPEN /\
  state (breaker (executes
            (Build_Call unit unit nat (fun n => (inl tt, S n)) None 30101 0
             :: [] ++ [Build_Call unit unit nat (fun n => (inl tt, S n)) None 30102 0])
            (set_lastFailureTime (Some 100) (set_state OPEN dbCircuitBreaker)) O)) =
  CLOSED /\
  failureCount (breaker (executes
            (Build_Call unit unit nat (fun n => (inl tt, S n)) None 30101 0
             :: [] ++ [Build_Call unit unit nat (fun n => (inl tt, S n)) None 30102 0])
            (set_lastFailureTime (Some 100) (set_state OPEN dbCircuitBreaker)) O)) = 0 /\
  successCount (breaker (executes
            (Build_Call unit unit nat (fun n => (inl tt, S n)) None 30101 0
             :: [] ++ [Build_Call unit unit nat (fun n => (inl tt, S n)) None 30102 0])
            (set_lastFailureTime (Some 100) (set_state OPEN dbCircuitBreaker)) O)) = 0.
Proof.
  apply (breaker_recovers
           (Build_Call unit unit nat (fun n => (inl tt, S n)) None 30101 0) []
           (Build_Call unit unit nat (fun n => (inl tt, S n)) None 30102 0)
           (set_lastFailureTime (Some 100) (set_state OPEN dbCircuitBreaker)) O).
  - reflexivity.
  - reflexivity.
  - repeat constructor; intros n; exists tt, (S n); reflexivity.
  - reflexivity.
Defined.

Lemma breaker_reopens_witness :
  state (snd (fst (execute (A := unit) (E := unit) (fun n : nat => (inr tt, S n))
                     None 30101 30105
                     (set_lastFailureTime (Some 100)
                        (set_failureCount 5 (set_state OPEN dbCircuitBreaker))) O))) =
  OPEN /\
  lastFailureTime
    (snd (fst (execute (A := unit) (E := unit) (fun n : nat => (inr tt, S n))
                 None 30101 30105
                 (set_lastFailureTime (Some 100)
                    (set_failureCount 5 (set_state OPEN dbCircuitBreaker))) O))) =
  Some 30105 /\
  forall now',
    sinceLastFailure now'
      (snd (fst (execute (A := unit) (E := unit) (fun n : nat => (inr tt, S n))
                   None 30101 30105
                   (set_lastFailureTime (Some 100)
                      (set_failureCount 5 (set_state OPEN dbCircuitBreaker))) O))) =
    now' - 30105.
Proof.
  apply (breaker_reopens (A := unit) (E := unit) (fun n : nat => (inr tt, S n))
           None 30101 30105
           (set_lastFailureTime (Some 100)
              (set_failureCount 5 (set_state OPEN dbCircuitBreaker))) O).
  - intros _. split; discriminate.
  - right. split; reflexivity.
  - intros n. exists tt, (S n). reflexivity.
Defined.

Lemma breaker_consecutive_witness :
  state (breaker (executes
            (repeat (Build_Call unit unit nat (fun n => (inr tt, S n)) None 0 100) 4
             ++ Build_Call unit unit nat (fun n => (inl tt, S n)) None 0 100
             :: repeat (Build_Call unit unit nat (fun n => (inr tt, S n)) None 0 100) 4)
            dbCircuitBreaker O)) = CLOSED /\
  failureCount (breaker (executes
            (repeat (Build_Call unit unit nat (fun n => (inr tt, S n)) None 0 100) 4
             ++ Build_Call unit unit nat (fun n => (inl tt, S n)) None 0 100
             :: repeat (Build_Call unit unit nat (fun n => (inr tt, S n)) None 0 100) 4)
            dbCircuitBreaker O)) = Z.of_nat 4.
Proof.
  apply (breaker_consecutive
           (repeat (Build_Call unit unit nat (fun n => (inr tt, S n)) None 0 100) 4)
           (Build_Call unit unit nat (fun n => (inl tt, S n)) None 0 100)
           (repeat (Build_Call unit unit nat (fun n => (inr tt, S n)) None 0 100) 4)
           dbCircuitBreaker O).
  - reflexivity.
  - repeat constructor; intros n; exists tt, (S n); reflexivity.
  - reflexivity.
  - intros n. exists tt, (S n). reflexivity.
  - repeat constructor; intros n; exists tt, (S n); reflexivity.
  - reflexivity.
Defined.

End CircuitBreakerFacts.
